(** * ai-trading-manager: risk-gated position ledger and webhook signal intake

    A shallow embedding of [src/portfolio/PortfolioManager.js] and
    [src/tradingview/WebhookReceiver.js] (with the signal queue of the
    trading manager that consumes the receiver's events), and the properties
    of the specification stated over it.

    Conventions of the embedding.
    - JavaScript numbers are exact rationals ([Q]); IEEE rounding, infinities
      and NaN are outside the model.  [Q] sets [x / 0] to [0] where JavaScript
      gives an infinity or NaN, so the embedding is meant for finite operands
      and non-zero divisors: a statement whose truth in JavaScript needs the
      price of a signal to be non-zero says so.
    - A JavaScript [Map] is an insertion-ordered association list: [set] on a
      present key keeps the entry's place, [set] on an absent key appends.
    - Each method is a function from the object's state to a result and the
      new state.  Readings of the environment ([Date.now()], [moment()], the
      generated ids) are arguments of the function that takes them.
    - [emit] of the portfolio manager appends to an event log kept in its
      state; the events of the webhook receiver are returned to the caller,
      who hands them to the listeners. *)

From Stdlib Require Import QArith Qabs Qminmax Lqa ZArith Lia List String Ascii Bool.
From Stdlib Require Import Sorted.
Import ListNotations.
Open Scope Q_scope.

(** ** Insertion-ordered maps with string keys (JavaScript [Map]) *)

Module JsMap.
Section Ops.
Context {V : Type}.

Definition t := list (string * V).

Definition empty : t := [].

Fixpoint get (k : string) (m : t) : option V :=
  match m with
  | [] => None
  | (k', v) :: r => if String.eqb k k' then Some v else get k r
  end.

Fixpoint set (k : string) (v : V) (m : t) : t :=
  match m with
  | [] => [(k, v)]
  | (k', v') :: r =>
      if String.eqb k k' then (k, v) :: r else (k', v') :: set k v r
  end.

Definition delete (k : string) (m : t) : t :=
  filter (fun e => negb (String.eqb k (fst e))) m.

Definition keys (m : t) : list string := map fst m.
Definition values (m : t) : list V := map snd m.
Definition size (m : t) : nat := List.length m.

(** Every key occurs once; all maps built from [empty] satisfy it. *)
Definition wf (m : t) : Prop := NoDup (keys m).
End Ops.
Arguments t : clear implicits.
End JsMap.

(** ** Numbers *)

Definition Qlt_bool (x y : Q) : bool := negb (Qle_bool y x).

(** [a || d] on an optional numeric configuration field: absent and [0] are
    both falsy. *)
Definition orDefault (a : option Q) (d : Q) : Q :=
  match a with
  | Some x => if Qeq_bool x 0 then d else x
  | None => d
  end.

(** [symbol.replace(pat, rep)] with a string pattern: the first occurrence. *)
Fixpoint replaceFirst (pat rep s : string) : string :=
  if String.prefix pat s
  then String.append rep (String.substring (String.length pat) (String.length s - String.length pat) s)
  else match s with
       | EmptyString => EmptyString
       | String c r => String c (replaceFirst pat rep r)
       end.

(** ** The portfolio manager ([src/portfolio/PortfolioManager.js]) *)

Module PortfolioManager.

Record Position := mkPosition {
  id : string;
  symbol : string;
  strategy : string;
  side : string;            (* 'long' or 'short' *)
  entryPrice : Q;
  size : Q;
  timestamp : Z;            (* moment(), in milliseconds *)
  stopLoss : Q;
  takeProfit : Q;
  status : string;
  unrealizedPnL : Q;
  maxDrawdown : Q;
  maxProfit : Q
}.

(** A closed trade is [{...position, closePrice, ..., status: 'closed'}]: the
    position's fields with [status] overwritten, and the close fields. *)
Record ClosedTrade := mkClosedTrade {
  tradePosition : Position;
  closePrice : Q;
  closeTimestamp : Z;
  realizedPnL : Q;
  reason : string;
  duration : Z
}.

(** The candidate trade handed to [openPosition]. *)
Record Signal := mkSignal {
  sg_symbol : string;
  sg_strategy : string;
  sg_side : string;
  sg_price : Q;
  sg_stopLoss : Q;
  sg_takeProfit : Q
}.

Record Checks := mkChecks {
  chk_maxPositions : bool;
  chk_correlation : bool;
  chk_riskBudget : bool;
  chk_capital : bool
}.

Inductive Event :=
| positionRejected (symbol strategy : string) (checks : Checks)
| positionOpened (p : Position)
| positionClosed (t : ClosedTrade)
| positionsUpdated
| partialProfitSuggestion (p : Position) (currentPnL : Q)
| portfolioRebalanced.

Record Config := mkConfig {
  cfg_initialCapital : option Q;
  cfg_maxRiskPerTrade : option Q;
  cfg_maxPortfolioRisk : option Q;
  cfg_maxOpenPositions : option Q;
  cfg_correlationThreshold : option Q
}.

Record State := mkState {
  initialCapital : Q;
  currentCapital : Q;
  positions : JsMap.t Position;
  closedTrades : list ClosedTrade;
  maxRiskPerTrade : Q;
  maxPortfolioRisk : Q;
  maxOpenPositions : Q;
  correlationThreshold : Q;
  emitted : list Event
}.

Definition constructor (config : Config) : State :=
  let initial := orDefault (cfg_initialCapital config) 10000 in
  {| initialCapital := initial;
     currentCapital := initial;
     positions := JsMap.empty;
     closedTrades := [];
     maxRiskPerTrade := orDefault (cfg_maxRiskPerTrade config) 0.02;
     maxPortfolioRisk := orDefault (cfg_maxPortfolioRisk config) 0.10;
     maxOpenPositions := orDefault (cfg_maxOpenPositions config) 5;
     correlationThreshold := orDefault (cfg_correlationThreshold config) 0.7;
     emitted := [] |}.

Definition defaultConfig : Config := mkConfig None None None None None.

(** *** State updates *)

Definition emit (e : Event) (st : State) : State :=
  {| initialCapital := initialCapital st;
     currentCapital := currentCapital st;
     positions := positions st;
     closedTrades := closedTrades st;
     maxRiskPerTrade := maxRiskPerTrade st;
     maxPortfolioRisk := maxPortfolioRisk st;
     maxOpenPositions := maxOpenPositions st;
     correlationThreshold := correlationThreshold st;
     emitted := emitted st ++ [e] |}.

Definition setLedger (cap : Q) (ps : JsMap.t Position) (ts : list ClosedTrade)
    (st : State) : State :=
  {| initialCapital := initialCapital st;
     currentCapital := cap;
     positions := ps;
     closedTrades := ts;
     maxRiskPerTrade := maxRiskPerTrade st;
     maxPortfolioRisk := maxPortfolioRisk st;
     maxOpenPositions := maxOpenPositions st;
     correlationThreshold := correlationThreshold st;
     emitted := emitted st |}.

Definition setStatus (s : string) (p : Position) : Position :=
  mkPosition (id p) (symbol p) (strategy p) (side p) (entryPrice p) (size p)
    (timestamp p) (stopLoss p) (takeProfit p) s
    (unrealizedPnL p) (maxDrawdown p) (maxProfit p).

Definition setMetrics (u dd mp : Q) (p : Position) : Position :=
  mkPosition (id p) (symbol p) (strategy p) (side p) (entryPrice p) (size p)
    (timestamp p) (stopLoss p) (takeProfit p) (status p) u dd mp.

(** *** Portfolio analytics used by the admission checks *)

Definition getAvailableCapital (st : State) : Q := currentCapital st.

Definition getOpenPositionsValue (st : State) : Q :=
  fold_left (fun total pos => total + size pos * entryPrice pos)
    (JsMap.values (positions st)) 0.

Definition getTotalPortfolioValue (st : State) : Q :=
  currentCapital st + getOpenPositionsValue st.

Definition positionRisk (pos : Position) : Q :=
  Qabs (entryPrice pos - stopLoss pos) / entryPrice pos.

Definition getCurrentPortfolioRisk (st : State) : Q :=
  fold_left (fun risk pos => risk + positionRisk pos)
    (JsMap.values (positions st)) 0.

(** *** Risk management *)

Definition correlationGroups : list (string * list string) :=
  [ ("BTC", ["ETH"; "LTC"; "BCH"]);
    ("ETH", ["BTC"; "ADA"; "DOT"]);
    ("ADA", ["ETH"; "DOT"; "SOL"]);
    ("DOT", ["ETH"; "ADA"; "LINK"]) ]%string.

Definition includes (x : string) (l : list string) : bool :=
  existsb (String.eqb x) l.

(** Symbols are instrument tickers; names of [Object.prototype] members, which
    the object literal would also answer for, are outside the model. *)
Definition getCorrelatedSymbols (symbol : string) : list string :=
  let baseSymbol := replaceFirst "/USD" EmptyString (replaceFirst "/USDT" EmptyString symbol) in
  match JsMap.get baseSymbol correlationGroups with
  | Some g => g
  | None => []
  end.

Definition checkCorrelationLimit (st : State) (symbol0 : string) : bool :=
  let correlatedSymbols := getCorrelatedSymbols symbol0 in
  let correlatedPositions :=
    filter (fun pos => includes (symbol pos) correlatedSymbols)
      (JsMap.values (positions st)) in
  Nat.ltb (List.length correlatedPositions) 2.

Definition checkRiskBudget (st : State) (strategy0 : string) (currentPrice : Q) : bool :=
  let currentRisk := getCurrentPortfolioRisk st in
  let newTradeRisk := maxRiskPerTrade st in
  Qle_bool (currentRisk + newTradeRisk) (maxPortfolioRisk st).

Definition calculatePositionSize (st : State) (signal : Signal) : Q :=
  let riskAmount := currentCapital st * maxRiskPerTrade st in
  let stopDistance := Qabs (sg_price signal - sg_stopLoss signal) / sg_price signal in
  let positionValue := riskAmount / stopDistance in
  let maxPositionValue := getAvailableCapital st * 0.8 in
  let positionValue := Qmin positionValue maxPositionValue in
  positionValue / sg_price signal.

(** *** Position management *)

Definition admissionChecks (st : State) (symbol0 strategy0 : string) (currentPrice : Q)
    : Checks :=
  {| chk_maxPositions :=
       Qlt_bool (inject_Z (Z.of_nat (JsMap.size (positions st)))) (maxOpenPositions st);
     chk_correlation := checkCorrelationLimit st symbol0;
     chk_riskBudget := checkRiskBudget st strategy0 currentPrice;
     chk_capital := Qlt_bool 0 (getAvailableCapital st) |}.

Definition allChecks (c : Checks) : bool :=
  chk_maxPositions c && chk_correlation c && chk_riskBudget c && chk_capital c.

Definition canOpenPosition (st : State) (symbol0 strategy0 : string) (currentPrice : Q)
    : bool * State :=
  let checks := admissionChecks st symbol0 strategy0 currentPrice in
  let canOpen := allChecks checks in
  (canOpen,
   if canOpen then st else emit (positionRejected symbol0 strategy0 checks) st).

(** [newId] is the result of [generatePositionId()], [now] that of [moment()]. *)
Definition openPosition (st : State) (newId : string) (now : Z) (signal : Signal)
    : option Position * State :=
  let (ok, st1) := canOpenPosition st (sg_symbol signal) (sg_strategy signal) (sg_price signal) in
  if negb ok then (None, st1)
  else
    let positionSize := calculatePositionSize st1 signal in
    let position :=
      {| id := newId;
         symbol := sg_symbol signal;
         strategy := sg_strategy signal;
         side := sg_side signal;
         entryPrice := sg_price signal;
         size := positionSize;
         timestamp := now;
         stopLoss := sg_stopLoss signal;
         takeProfit := sg_takeProfit signal;
         status := "open";
         unrealizedPnL := 0;
         maxDrawdown := 0;
         maxProfit := 0 |} in
    let st2 :=
      setLedger (currentCapital st1 - positionSize * sg_price signal)
        (JsMap.set (id position) position (positions st1))
        (closedTrades st1) st1 in
    (Some position, emit (positionOpened position) st2).

Definition calculatePnL (position : Position) (currentPrice : Q) : Q :=
  let priceDiff :=
    if String.eqb (side position) "long"
    then currentPrice - entryPrice position
    else entryPrice position - currentPrice in
  size position * priceDiff.

Definition hoursBetween (later earlier : Z) : Z :=
  Z.quot (later - earlier) 3600000.

(** [None] is the [false] returned for an id that is not open. *)
Definition closePosition (st : State) (positionId : string) (closePrice0 : Q)
    (reason0 : string) (now : Z) : option ClosedTrade * State :=
  match JsMap.get positionId (positions st) with
  | None => (None, st)
  | Some position =>
      let pnl := calculatePnL position closePrice0 in
      let trade :=
        {| tradePosition := setStatus "closed" position;
           closePrice := closePrice0;
           closeTimestamp := now;
           realizedPnL := pnl;
           reason := reason0;
           duration := hoursBetween now (timestamp position) |} in
      let st1 :=
        setLedger (currentCapital st + size position * closePrice0)
          (JsMap.delete positionId (positions st))
          (closedTrades st ++ [trade]) st in
      (Some trade, emit (positionClosed trade) st1)
  end.

(** [closePosition(positionId, closePrice)]: the default reason. *)
Definition closePositionManual (st : State) (positionId : string) (closePrice0 : Q)
    (now : Z) : option ClosedTrade * State :=
  closePosition st positionId closePrice0 "manual" now.

(** *** Exit monitoring *)

Definition checkExitConditions (st : State) (positionId : string) (position : Position)
    (currentPrice : Q) (now : Z) : State :=
  let '(shouldClose, reason0) :=
    if String.eqb (side position) "long" then
      if Qle_bool currentPrice (stopLoss position) then (true, "stop_loss"%string)
      else if Qle_bool (takeProfit position) currentPrice then (true, "take_profit"%string)
      else (false, EmptyString)
    else (* short *)
      if Qle_bool (stopLoss position) currentPrice then (true, "stop_loss"%string)
      else if Qle_bool currentPrice (takeProfit position) then (true, "take_profit"%string)
      else (false, EmptyString) in
  if shouldClose then snd (closePosition st positionId currentPrice reason0 now) else st.

(** One turn of the loop of [updatePositions].  The iterator of a [Map] is
    live: an entry deleted before it is reached is skipped.  The position
    object is mutated in place, which is a [set] on its own key.  A price that
    is absent or [0] is falsy. *)
Definition updatePosition (marketData : string -> option Q) (now : Z) (st : State)
    (id0 : string) : State :=
  match JsMap.get id0 (positions st) with
  | None => st
  | Some position =>
      match marketData (symbol position) with
      | None => st
      | Some currentPrice =>
          if Qeq_bool currentPrice 0 then st
          else
            let unrealized := calculatePnL position currentPrice in
            let pnlPercent := unrealized / (size position * entryPrice position) in
            let position' :=
              setMetrics unrealized
                (Qmin (maxDrawdown position) pnlPercent)
                (Qmax (maxProfit position) pnlPercent) position in
            let st1 :=
              setLedger (currentCapital st)
                (JsMap.set id0 position' (positions st)) (closedTrades st) st in
            checkExitConditions st1 id0 position' currentPrice now
      end
  end.

Definition updatePositions (st : State) (marketData : string -> option Q) (now : Z)
    : State :=
  emit positionsUpdated
    (fold_left (updatePosition marketData now) (JsMap.keys (positions st)) st).

(** *** Rebalancing

    The summary carried by [portfolioRebalanced] (and by [positionsUpdated])
    is computed by the analytics and changes nothing; the events are kept
    without it. *)

Definition pnlPercentOf (position : Position) : Q :=
  unrealizedPnL position / (size position * entryPrice position).

Definition rebalanceStep (now : Z) (st : State) (id0 : string) : State :=
  match JsMap.get id0 (positions st) with
  | None => st
  | Some position =>
      let pnlPercent := pnlPercentOf position in
      let st1 :=
        if Qlt_bool pnlPercent (-0.15)
        then snd (closePosition st id0 (entryPrice position * (1 + pnlPercent))
                    "rebalance_loss" now)
        else st in
      if Qlt_bool 0.25 pnlPercent
      then emit (partialProfitSuggestion position pnlPercent) st1
      else st1
  end.

Definition rebalancePortfolio (st : State) (now : Z) : State :=
  emit portfolioRebalanced
    (fold_left (rebalanceStep now) (JsMap.keys (positions st)) st).

End PortfolioManager.

(** ** The webhook receiver ([src/tradingview/WebhookReceiver.js]) *)

Module WebhookReceiver.

(** The values a field of the JSON body, a header or the configured secret
    can hold here: absent, [null], or a string.  Numbers, booleans and nested
    objects in the [symbol] and [action] fields are outside the model. *)
Inductive jsval :=
| undefined
| null
| str (s : string).

Definition truthy (v : jsval) : bool :=
  match v with
  | str s => negb (String.eqb s EmptyString)
  | _ => false
  end.

(** [a === b] *)
Definition strictEq (a b : jsval) : bool :=
  match a, b with
  | undefined, undefined => true
  | null, null => true
  | str s, str t => String.eqb s t
  | _, _ => false
  end.

(** [a || b] *)
Definition orElse (a b : jsval) : jsval := if truthy a then a else b.

(** The body as [express.json()] hands it over: a parsed JSON object (the
    branch of [extractSignalData] for text alerts is not reached through this
    parser, and bodies it refuses, over 1 MB or not JSON, never get here).
    Only the fields that decide intake are kept; the price, strategy,
    timeframe, indicator and metadata fields are copied into the signal and
    read by no step of the receiver. *)
Record Payload := mkPayload {
  p_symbol : jsval;
  p_ticker : jsval;
  p_action : jsval;
  p_signal : jsval
}.

Record Signal := mkSignal {
  id : string;
  timestamp : Z;
  raw : Payload;
  symbol : jsval;
  action : jsval
}.

Inductive Event :=
| invalidSignal (s : Signal)
| buySignal (s : Signal)
| sellSignal (s : Signal)
| closeSignal (s : Signal)
| signal (s : Signal).

Record Config := mkConfig {
  cfg_webhookSecret : jsval;
  env_TRADINGVIEW_WEBHOOK_SECRET : jsval;
  cfg_allowedIPs : option (list string);
  cfg_signalTTL : option Z
}.

Record State := mkState {
  webhookSecret : jsval;
  allowedIPs : list string;
  recentSignals : JsMap.t Signal;
  signalTTL : Z
}.

Definition constructor (config : Config) : State :=
  {| webhookSecret := orElse (cfg_webhookSecret config) (env_TRADINGVIEW_WEBHOOK_SECRET config);
     allowedIPs := match cfg_allowedIPs config with Some l => l | None => [] end;
     recentSignals := JsMap.empty;
     signalTTL := match cfg_signalTTL config with
                  | Some t => if Z.eqb t 0 then 60000%Z else t
                  | None => 60000%Z
                  end |}.

Definition setRecentSignals (m : JsMap.t Signal) (st : State) : State :=
  {| webhookSecret := webhookSecret st;
     allowedIPs := allowedIPs st;
     recentSignals := m;
     signalTTL := signalTTL st |}.

Record Request := mkRequest {
  req_ip : string;
  req_signature : jsval;     (* headers['x-tradingview-signature'] *)
  req_body : Payload
}.

Inductive Body :=
| errorBody (error : string)
| statusBody (status : string) (signalId : option string).

(** [respond c b] is [res.status(c).json(b)]; [unhandledError] is the answer of
    Express's default error handler (status 500) to an exception thrown by a
    middleware. *)
Inductive Response :=
| respond (code : nat) (body : Body)
| unhandledError.

Inductive Outcome (A : Type) :=
| returned (a : A)
| thrown.
Arguments returned {A} a.
Arguments thrown {A}.

(** *** Characters and byte buffers *)

Definition isLower (c : ascii) : bool :=
  let n := nat_of_ascii c in Nat.leb 97 n && Nat.leb n 122.
Definition isUpper (c : ascii) : bool :=
  let n := nat_of_ascii c in Nat.leb 65 n && Nat.leb n 90.
Definition isLetter (c : ascii) : bool := isUpper c || isLower c.

Definition upperChar (c : ascii) : ascii :=
  if isLower c then ascii_of_nat (nat_of_ascii c - 32) else c.
Definition lowerChar (c : ascii) : ascii :=
  if isUpper c then ascii_of_nat (nat_of_ascii c + 32) else c.

Fixpoint mapString (f : ascii -> ascii) (s : string) : string :=
  match s with
  | EmptyString => EmptyString
  | String c r => String (f c) (mapString f r)
  end.

Definition toUpperCase : string -> string := mapString upperChar.
Definition toLowerCase : string -> string := mapString lowerChar.

Definition unhex (c : ascii) : option nat :=
  let n := nat_of_ascii c in
  if Nat.leb 48 n && Nat.leb n 57 then Some (n - 48)%nat
  else if Nat.leb 97 n && Nat.leb n 102 then Some (n - 87)%nat
  else if Nat.leb 65 n && Nat.leb n 70 then Some (n - 55)%nat
  else None.

(** [Buffer.from(s, 'hex')]: pairs of hexadecimal digits are decoded up to the
    first pair that is not one; a trailing single character is dropped. *)
Fixpoint bufferFromHex (s : string) : list nat :=
  match s with
  | String a (String b r) =>
      match unhex a, unhex b with
      | Some x, Some y => (16 * x + y)%nat :: bufferFromHex r
      | _, _ => []
      end
  | _ => []
  end.

(** [crypto.timingSafeEqual]: throws when the byte lengths differ. *)
Definition timingSafeEqual (a b : list nat) : Outcome bool :=
  if Nat.eqb (List.length a) (List.length b)
  then returned (if list_eq_dec Nat.eq_dec a b then true else false)
  else thrown.

(** [/^[A-Z]{2,10}(USDT?|BTC|ETH)$/i.test(s)]: the string is two to ten
    letters followed by one of the four endings, in any case. *)
Definition symbolPattern (s : string) : bool :=
  existsb
    (fun ending =>
       let n := String.length s in
       let k := String.length ending in
       let head := String.substring 0 (n - k) s in
       let tail := String.substring (n - k) k s in
       Nat.leb k n
       && String.eqb (toUpperCase tail) ending
       && Nat.leb 2 (String.length head) && Nat.leb (String.length head) 10
       && forallb isLetter (list_ascii_of_string head))
    ["USD"; "USDT"; "BTC"; "ETH"]%string.

Definition includes (x : string) (l : list string) : bool :=
  existsb (String.eqb x) l.

Section Intake.
(** [hmacSha256Hex key msg] is
    [crypto.createHmac('sha256', key).update(msg).digest('hex')] and
    [jsonStringify] is [JSON.stringify]; both come from the platform. *)
Variable hmacSha256Hex : string -> string -> string.
Variable jsonStringify : Payload -> string.

Definition verifySignature (st : State) (payload : Payload) (signature : jsval)
    : Outcome bool :=
  if negb (truthy (webhookSecret st)) || negb (truthy signature)
  then returned true (* Skip if no secret *)
  else
    match webhookSecret st, signature with
    | str secret, str sig =>
        let expectedSignature := hmacSha256Hex secret (jsonStringify payload) in
        timingSafeEqual (bufferFromHex sig) (bufferFromHex expectedSignature)
    | _, _ => returned true
    end.

(** The two middlewares of [setupMiddleware]: [None] is [next()]. *)
Definition ipMiddleware (st : State) (req : Request) : option Response :=
  if Nat.ltb 0 (List.length (allowedIPs st)) && negb (includes (req_ip req) (allowedIPs st))
  then Some (respond 403 (errorBody "Unauthorized IP"))
  else None.

Definition signatureMiddleware (st : State) (req : Request) : option Response :=
  if truthy (webhookSecret st) then
    match verifySignature st (req_body req) (req_signature req) with
    | returned true => None
    | returned false => Some (respond 401 (errorBody "Invalid signature"))
    | thrown => Some unhandledError
    end
  else None.

(** [newId] is [generateSignalId()] and [now] is [Date.now()]. *)
Definition parseWebhookData (newId : string) (now : Z) (data : Payload) : Signal :=
  {| id := newId;
     timestamp := now;
     raw := data;
     symbol := orElse (p_symbol data) (p_ticker data);
     action := orElse (p_action data) (p_signal data) |}.

Definition matches (st : State) (sg existingSignal : Signal) : bool :=
  strictEq (symbol existingSignal) (symbol sg)
  && strictEq (action existingSignal) (action sg)
  && Z.ltb (timestamp sg - timestamp existingSignal) (signalTTL st).

Definition isDuplicateSignal (st : State) (sg : Signal) : bool :=
  existsb (matches st sg) (JsMap.values (recentSignals st)).

Definition cleanOldSignals (st : State) (now : Z) : State :=
  setRecentSignals
    (filter (fun e => negb (Z.ltb (signalTTL st * 10) (now - timestamp (snd e))))
       (recentSignals st))
    st.

Definition isValidSignal (sg : Signal) : bool :=
  if negb (truthy (symbol sg)) || negb (truthy (action sg)) then false
  else
    match symbol sg, action sg with
    | str sym, str act =>
        if negb (symbolPattern sym) then false
        else if negb (includes (toLowerCase act)
                        ["buy"; "sell"; "close"; "long"; "short"; "exit"]%string)
        then false
        else true
    | _, _ => false
    end.

Definition dispatch (sg : Signal) : Event :=
  match action sg with
  | str "buy" | str "long" => buySignal sg
  | str "sell" | str "short" => sellSignal sg
  | str "close" | str "exit" => closeSignal sg
  | _ => signal sg
  end.

(** [nowClean] is the [Date.now()] of [cleanOldSignals]. *)
Definition processSignal (st : State) (sg : Signal) (nowClean : Z) : Event * State :=
  let st1 := setRecentSignals (JsMap.set (id sg) sg (recentSignals st)) st in
  let st2 := cleanOldSignals st1 nowClean in
  if negb (isValidSignal sg) then (invalidSignal sg, st2)
  else (dispatch sg, st2).

(** The readings of the environment taken while one request is served. *)
Record Env := mkEnv {
  newId : string;
  now : Z;
  nowClean : Z
}.

(** The [POST /webhook] route. *)
Definition postWebhook (st : State) (env : Env) (req : Request)
    : Response * list Event * State :=
  let sg := parseWebhookData (newId env) (now env) (req_body req) in
  if isDuplicateSignal st sg
  then (respond 200 (statusBody "duplicate_ignored" None), [], st)
  else
    let (ev, st') := processSignal st sg (nowClean env) in
    (respond 200 (statusBody "received" (Some (id sg))), [ev], st').

(** A [POST /webhook] request through the middlewares and the route. *)
Definition handleWebhook (st : State) (env : Env) (req : Request)
    : Response * list Event * State :=
  match ipMiddleware st req with
  | Some res => (res, [], st)
  | None =>
      match signatureMiddleware st req with
      | Some res => (res, [], st)
      | None => postWebhook st env req
      end
  end.
End Intake.

End WebhookReceiver.

(** ** The signal queue of the trading manager

    The trading manager listens to [buySignal], [sellSignal] and [closeSignal]
    of the receiver and queues what it hears; [invalidSignal] and [signal] have
    no listener. *)

Module TradingManager.

Record QueuedSignal := mkQueued {
  q_signal : WebhookReceiver.Signal;
  q_type : string;
  queuedAt : Z
}.

Record State := mkState {
  isActive : bool;
  signalQueue : list QueuedSignal
}.

Definition queueSignal (tm : State) (sg : WebhookReceiver.Signal) (type : string)
    (now : Z) : State :=
  if negb (isActive tm) then tm
  else {| isActive := isActive tm;
          signalQueue := signalQueue tm ++ [mkQueued sg type now] |}.

Definition onWebhookEvent (now : Z) (tm : State) (ev : WebhookReceiver.Event) : State :=
  match ev with
  | WebhookReceiver.buySignal sg => queueSignal tm sg "buy" now
  | WebhookReceiver.sellSignal sg => queueSignal tm sg "sell" now
  | WebhookReceiver.closeSignal sg => queueSignal tm sg "close" now
  | _ => tm
  end.

Section Arrival.
Variable hmacSha256Hex : string -> string -> string.
Variable jsonStringify : WebhookReceiver.Payload -> string.

(** One request served by the receiver, its events heard by the manager. *)
Definition arrive (sys : WebhookReceiver.State * State) (env : WebhookReceiver.Env)
    (req : WebhookReceiver.Request)
    : WebhookReceiver.Response * (WebhookReceiver.State * State) :=
  let '(res, evs, st') :=
    WebhookReceiver.handleWebhook hmacSha256Hex jsonStringify (fst sys) env req in
  (res, (st', fold_left (onWebhookEvent (WebhookReceiver.nowClean env)) evs (snd sys))).
End Arrival.

End TradingManager.

(** ** Vocabulary of the specification

    Runs of the ledger, the quantities the specification names, and the
    formulas it writes out, to be compared with the code's. *)

Module Ledger.
Import PortfolioManager.

(** [l.reduce((acc, x) => acc + f(x), 0)] *)
Definition sumOver {A : Type} (f : A -> Q) (l : list A) : Q :=
  fold_left (fun acc x => acc + f x) l 0.

Definition isSome {A : Type} (o : option A) : bool :=
  match o with Some _ => true | None => false end.

(** One call of [openPosition], with the readings it takes. *)
Record Opening := mkOpening {
  o_id : string;
  o_now : Z;
  o_signal : Signal
}.

(** A sequence of openings: for each, whether it was admitted and the state
    after it. *)
Fixpoint runOpenings (st : State) (l : list Opening) : list (bool * State) :=
  match l with
  | [] => []
  | o :: r =>
      let (res, st') := openPosition st (o_id o) (o_now o) (o_signal o) in
      (isSome res, st') :: runOpenings st' r
  end.

(** The stop distance of a candidate trade, as a fraction of its price. *)
Definition stopFraction (sg : Signal) : Q :=
  Qabs (sg_price sg - sg_stopLoss sg) / sg_price sg.

(** The risk budget holds after every admission of the run. *)
Definition riskBudgetHolds (st : State) (l : list Opening) : Prop :=
  Forall (fun r => fst r = true ->
                   getCurrentPortfolioRisk (snd r) <= maxPortfolioRisk (snd r))
    (runOpenings st l).

(** A candidate with a price to divide by whose stop is within the risk
    budgeted for one trade. *)
Definition boundedStop (st : State) (sg : Signal) : Prop :=
  ~ sg_price sg == 0 /\ stopFraction sg <= maxRiskPerTrade st.

(** The ids handed to the openings are new: distinct, and not open. *)
Definition freshIds (st : State) (l : list Opening) : Prop :=
  NoDup (map o_id l)
  /\ forall o, In o l -> JsMap.get (o_id o) (positions st) = None.

(** A call on the ledger, and a run of calls from a state. *)
Inductive Call :=
| callOpen (newId : string) (now : Z) (sg : Signal)
| callClose (positionId : string) (closePrice0 : Q) (reason0 : string) (now : Z).

Definition step (st : State) (c : Call) : State :=
  match c with
  | callOpen newId now sg => snd (openPosition st newId now sg)
  | callClose pid price r now => snd (closePosition st pid price r now)
  end.

Definition run (st : State) (l : list Call) : State := fold_left step l st.

(** Capital reconciliation as the specification states it. *)
Definition reconciles (st : State) : Prop :=
  currentCapital st + getOpenPositionsValue st
  == initialCapital st + sumOver realizedPnL (closedTrades st).

(** Every opening of the run is long, has a price to divide by, and is given
    an id that is not open. *)
Fixpoint longAndFresh (st : State) (l : list Call) : Prop :=
  match l with
  | [] => True
  | c :: r =>
      match c with
      | callOpen newId _ sg =>
          sg_side sg = "long"%string
          /\ ~ sg_price sg == 0
          /\ JsMap.get newId (positions st) = None
      | callClose _ _ _ _ => True
      end /\ longAndFresh (step st c) r
  end.

(** The position [p] under [pid] was closed between [st] and [st']: one trade
    was appended, at [price] and for reason [r], and [pid] left the open set. *)
Definition closedWith (st st' : State) (pid : string) (p : Position) (price : Q)
    (r : string) : Prop :=
  exists trade,
    closedTrades st' = closedTrades st ++ [trade]
    /\ tradePosition trade = setStatus "closed" p
    /\ closePrice trade = price
    /\ reason trade = r
    /\ realizedPnL trade = calculatePnL p price
    /\ positions st' = JsMap.delete pid (positions st).



(** The close reasons the specification declares for a closed trade. *)
Definition declaredCloseReasons : list string :=
  ["stop_loss"; "take_profit"; "manual"; "rebalance"; "shutdown"]%string.

(** The position an admitted signal opens. *)
Definition opened (st : State) (newId : string) (now : Z) (sg : Signal) : Position :=
  {| id := newId;
     symbol := sg_symbol sg;
     strategy := sg_strategy sg;
     side := sg_side sg;
     entryPrice := sg_price sg;
     size := calculatePositionSize st sg;
     timestamp := now;
     stopLoss := sg_stopLoss sg;
     takeProfit := sg_takeProfit sg;
     status := "open";
     unrealizedPnL := 0;
     maxDrawdown := 0;
     maxProfit := 0 |}.

(** The capital a position holds, as [getOpenPositionsValue] counts it. *)
Definition committed (p : Position) : Q := size p * entryPrice p.

Definition allLong (st : State) : Prop :=
  Forall (fun p => side p = "long"%string) (JsMap.values (positions st)).

(** The logs of closed trades and of events only grow. *)
Definition extends (st st' : State) : Prop :=
  (exists ts, closedTrades st' = closedTrades st ++ ts)
  /\ (exists evs, emitted st' = emitted st ++ evs).

End Ledger.

Module Intake.
Import WebhookReceiver.

(** One [POST /webhook] request that reached the route, with the readings of
    the environment taken while it is served. *)
Record Arrival := mkArrival {
  a_env : Env;
  a_req : Request
}.

Definition signalOf (a : Arrival) : Signal :=
  parseWebhookData (newId (a_env a)) (now (a_env a)) (req_body (a_req a)).

Definition serve (st : State) (a : Arrival) : Response * list Event * State :=
  postWebhook st (a_env a) (a_req a).

Definition serveAll (st : State) (l : list Arrival) : State :=
  fold_left (fun s a => snd (serve s a)) l st.

Definition received (a : Arrival) : Response :=
  respond 200 (statusBody "received" (Some (id (signalOf a)))).

Definition duplicateIgnored : Response :=
  respond 200 (statusBody "duplicate_ignored" None).

(** What the trading manager's queue holds after hearing the events. *)
Definition heard (tm : TradingManager.State) (a : Arrival) (evs : list Event)
    : TradingManager.State :=
  fold_left (TradingManager.onWebhookEvent (nowClean (a_env a))) evs tm.

(** A signal is admitted when its request is answered [received] and the
    signal is put on the queue. *)
Definition admitted (st : State) (tm : TradingManager.State) (a : Arrival) : bool :=
  let '(res, evs, _) := serve st a in
  (match res with
   | respond 200 (statusBody "received" _) => true
   | _ => false
   end)
  && Nat.ltb (List.length (TradingManager.signalQueue tm))
       (List.length (TradingManager.signalQueue (heard tm a evs))).

(** Same symbol, same action, and the later one less than the TTL after the
    earlier one. *)
Definition withinWindow (st : State) (earlier later : Signal) : Prop :=
  symbol earlier = symbol later
  /\ action earlier = action later
  /\ (timestamp later - timestamp earlier < signalTTL st)%Z.

(** The sweep run at [clean] keeps the signal: it is not older than ten
    times the TTL. *)
Definition survives (st : State) (sg : Signal) (clean : Z) : Prop :=
  (clean - timestamp sg <= signalTTL st * 10)%Z.

(** The requests served between two arrivals leave the entry of [sg] alone:
    none reuses its id and none sweeps it. *)
Definition undisturbed (st : State) (sg : Signal) (mid : list Arrival) : Prop :=
  Forall (fun m => newId (a_env m) <> id sg
                   /\ survives st sg (nowClean (a_env m))) mid.

(** [a], then the requests [mid], then [b] are served in this order by a
    clock that does not run backwards, and no request between reuses the id
    of [a]. *)
Definition servedBefore (a : Arrival) (mid : list Arrival) (b : Arrival) : Prop :=
  (now (a_env a) <= now (a_env b))%Z
  /\ (nowClean (a_env a) <= now (a_env b))%Z
  /\ Forall (fun m => (nowClean (a_env m) <= now (a_env b))%Z
                      /\ newId (a_env m) <> newId (a_env a)) mid.

Section Expected.
Variable hmacSha256Hex : string -> string -> string.
Variable jsonStringify : Payload -> string.

(** The bytes the receiver expects as signature of a body under a secret. *)
Definition expectedBytes (secret : string) (body : Payload) : list nat :=
  bufferFromHex (hmacSha256Hex secret (jsonStringify body)).
End Expected.

End Intake.

(** ** Scenarios

    The concrete books and requests the properties are evaluated on. *)

Module LedgerScenarios.
Import PortfolioManager Ledger.

(** The scenario of the specification: a fresh manager with the default
    capital and risk settings and the XAUUSD signal. *)
Definition xauusd : Signal :=
  {| sg_symbol := "XAUUSD"; sg_strategy := "GoldScalping"; sg_side := "long";
     sg_price := 2000; sg_stopLoss := 1990; sg_takeProfit := 2025 |}.

(** A long position with the thresholds of the specification's example,
    opened on a fresh manager with the default settings. *)
Definition exampleEntry : Signal :=
  {| sg_symbol := "ETHUSD"; sg_strategy := "EMACrossover"; sg_side := "long";
     sg_price := 100; sg_stopLoss := 98; sg_takeProfit := 106 |}.

Definition exampleLong : Position :=
  opened (constructor defaultConfig) "pos_1" 0 exampleEntry.

Definition exampleBook : State :=
  snd (openPosition (constructor defaultConfig) "pos_1" 0 exampleEntry).

(** A candidate whose stop is half its price away. *)
Definition wideStop : Signal :=
  {| sg_symbol := "ETHUSD"; sg_strategy := "EMACrossover"; sg_side := "long";
     sg_price := 100; sg_stopLoss := 50; sg_takeProfit := 200 |}.

(** A short sale at 100 with its stop above and its target below. *)
Definition shortEntry : Signal :=
  {| sg_symbol := "ETHUSD"; sg_strategy := "EMACrossover"; sg_side := "short";
     sg_price := 100; sg_stopLoss := 102; sg_takeProfit := 95 |}.

Definition shortRoundTrip : list Call :=
  [callOpen "pos_1" 0 shortEntry; callClose "pos_1" 90 "take_profit" 3600000].

(** A long position opened at 100 with a distant stop, revalued at 80 (down
    20%) and at 130 (up 30%). *)
Definition quote (price : Q) (sym : string) : option Q :=
  if String.eqb sym "ETHUSD" then Some price else None.

Definition fallenBook : State :=
  updatePositions (snd (openPosition (constructor defaultConfig) "pos_1" 0 wideStop))
    (quote 80) 60000.

Definition risenBook : State :=
  updatePositions (snd (openPosition (constructor defaultConfig) "pos_1" 0 wideStop))
    (quote 130) 60000.

Definition positionOf (st : State) (pid : string) : Position :=
  match JsMap.get pid (positions st) with
  | Some p => p
  | None => opened st pid 0 wideStop
  end.

End LedgerScenarios.

Module IntakeScenarios.
Import WebhookReceiver Intake.

Definition freshReceiver : State :=
  constructor (mkConfig undefined undefined None None).

Definition activeManager : TradingManager.State :=
  TradingManager.mkState true [].

Definition alert (sym act : jsval) (newId0 : string) (t : Z) : Arrival :=
  mkArrival (mkEnv newId0 t t)
    (mkRequest "52.89.214.238" undefined (mkPayload sym undefined act undefined)).

Definition buyBTC : string -> Z -> Arrival := alert (str "BTCUSDT") (str "buy").

(** The symbol is not on the allow-list pattern. *)
Definition buyGold : string -> Z -> Arrival := alert (str "XAU/USD") (str "buy").

(** A receiver with a secret configured. *)
Definition securedReceiver : State :=
  constructor (mkConfig (str "s3cret") undefined None None).

End IntakeScenarios.

(** ** More of the portfolio manager: analytics and the daily series *)

Module PortfolioAnalytics.
Import PortfolioManager Ledger.

Definition getTotalUnrealizedPnL (st : State) : Q :=
  fold_left (fun total pos => total + unrealizedPnL pos)
    (JsMap.values (positions st)) 0.

Definition countQ (n : nat) : Q := inject_Z (Z.of_nat n).

Definition isWin (t : ClosedTrade) : bool := Qlt_bool 0 (realizedPnL t).
Definition isLoss (t : ClosedTrade) : bool := Qlt_bool (realizedPnL t) 0.

Definition getWinRate (st : State) : Q :=
  if Nat.eqb (List.length (closedTrades st)) 0 then 0
  else
    let wins := List.length (filter isWin (closedTrades st)) in
    countQ wins / countQ (List.length (closedTrades st)).

Definition getProfitFactor (st : State) : Q :=
  let wins := filter isWin (closedTrades st) in
  let losses := filter isLoss (closedTrades st) in
  let totalWins := sumOver realizedPnL wins in
  let totalLosses := Qabs (sumOver realizedPnL losses) in
  if Qeq_bool totalLosses 0 then totalWins else totalWins / totalLosses.

(** One turn of the loop of [getMaxDrawdown], on the trade at index [i].
    The closed trades are distinct objects, so [indexOf(trade)] is [i] and the
    slice is the first [i + 1] trades. *)
Definition drawdownStep (st : State) (acc : Q * Q) (i : nat) : Q * Q :=
  let '(peak, maxDD) := acc in
  let currentValue :=
    initialCapital st + sumOver realizedPnL (firstn (S i) (closedTrades st)) in
  let peak := if Qlt_bool peak currentValue then currentValue else peak in
  let drawdown := (peak - currentValue) / peak in
  (peak, if Qlt_bool maxDD drawdown then drawdown else maxDD).

Definition getMaxDrawdown (st : State) : Q :=
  snd (fold_left (drawdownStep st) (seq 0 (List.length (closedTrades st)))
         (initialCapital st, 0)).

(** [dailyPnL] is the array of the same name, kept beside the ledger. *)
Definition updateDailyPnL (st : State) (dailyPnL : list Q) : list Q :=
  let currentValue := getTotalPortfolioValue st in
  let previousValue :=
    if Nat.ltb 0 (List.length dailyPnL)
    then initialCapital st + sumOver (fun pnl => pnl) dailyPnL
    else initialCapital st in
  let pushed := dailyPnL ++ [currentValue - previousValue] in
  if Nat.ltb 252 (List.length pushed) then tl pushed else pushed.

(** The equity after the first [k] closed trades. *)
Definition equityAfter (st : State) (k : nat) : Q :=
  initialCapital st + sumOver realizedPnL (firstn k (closedTrades st)).

End PortfolioAnalytics.

(** ** More of the trading manager: default thresholds and close signals *)

Module TradingControls.
Import PortfolioManager.

(** [calculateDefaultStopLoss(price, side, riskPercent = 0.02)] *)
Definition calculateDefaultStopLoss (price : Q) (side0 : string) (riskPercent : Q) : Q :=
  if String.eqb side0 "long"
  then price * (1 - riskPercent)
  else price * (1 + riskPercent).

(** [calculateDefaultTakeProfit(price, stopLoss, side, riskRewardRatio = 2.5)] *)
Definition calculateDefaultTakeProfit (price stopLoss0 : Q) (side0 : string)
    (riskRewardRatio : Q) : Q :=
  let risk := Qabs (price - stopLoss0) in
  let reward := risk * riskRewardRatio in
  if String.eqb side0 "long" then price + reward else price - reward.

Definition defaultRiskPercent : Q := 0.02.
Definition defaultRiskRewardRatio : Q := 2.5.

(** [processCloseSignal] in paper trading, for a signal that carries a price
    (a truthy [signal.price], so that no current price is awaited): the open
    positions on the symbol, as an array taken before the loop, are closed
    one after the other by their [id]. *)
Definition processCloseSignal (pm : State) (symbol0 : string) (price : Q) (now : Z)
    : State :=
  let positions0 :=
    filter (fun pos => String.eqb (symbol pos) symbol0) (JsMap.values (positions pm)) in
  fold_left
    (fun st position => snd (closePosition st (id position) price "manual_close" now))
    positions0 pm.

(** One turn of the loop of [processCloseSignal]. *)
Definition closeOne (price : Q) (now : Z) (st : State) (position : Position) : State :=
  snd (closePosition st (id position) price "manual_close" now).

End TradingControls.

(** ** More of the webhook receiver: configuration, text alerts, history *)

Module ReceiverExtras.
Import WebhookReceiver.

Definition setWebhookSecret (st : State) (secret : jsval) : State :=
  {| webhookSecret := secret;
     allowedIPs := allowedIPs st;
     recentSignals := recentSignals st;
     signalTTL := signalTTL st |}.

Definition addAllowedIP (st : State) (ip : string) : State :=
  if negb (includes ip (allowedIPs st))
  then {| webhookSecret := webhookSecret st;
          allowedIPs := allowedIPs st ++ [ip];
          recentSignals := recentSignals st;
          signalTTL := signalTTL st |}
  else st.

Record Stats := mkStats {
  recentSignalsCount : nat;
  allowedIPsCount : nat;
  hasSecret : bool
}.

Definition getStats (st : State) : Stats :=
  {| recentSignalsCount := JsMap.size (recentSignals st);
     allowedIPsCount := List.length (allowedIPs st);
     hasSecret := truthy (webhookSecret st) |}.




(** *** Text alerts *)

(** [s.includes(pat)] *)
Fixpoint contains (pat s : string) : bool :=
  String.prefix pat s
  || match s with
     | EmptyString => false
     | String _ r => contains pat r
     end.

Definition extractActionFromText (text : string) : jsval :=
  let lowerText := toLowerCase text in
  if contains "buy" lowerText || contains "long" lowerText then str "buy"
  else if contains "sell" lowerText || contains "short" lowerText then str "sell"
  else if contains "close" lowerText || contains "exit" lowerText then str "close"
  else null.

Fixpoint takeLetters (n : nat) (s : string) : option (string * string) :=
  match n with
  | O => Some (EmptyString, s)
  | S n' =>
      match s with
      | String c r =>
          if isLetter c
          then match takeLetters n' r with
               | Some (l, rest) => Some (String c l, rest)
               | None => None
               end
          else None
      | EmptyString => None
      end
  end.

Definition isChar (u : ascii) (c : ascii) : bool := Ascii.eqb (upperChar c) u.

(** [USDT?] at the head of [s], in any case: the text matched. *)
Definition takeUsd (s : string) : option string :=
  match s with
  | String a (String b (String c rest)) =>
      if isChar "U" a && isChar "S" b && isChar "D" c
      then match rest with
           | String t _ =>
               if isChar "T" t
               then Some (String a (String b (String c (String t EmptyString))))
               else Some (String a (String b (String c EmptyString)))
           | EmptyString => Some (String a (String b (String c EmptyString)))
           end
      else None
  | _ => None
  end.

(** [[A-Z]{2,10}USDT?] anchored at the head of [s] with [k] letters. *)
Definition matchWith (k : nat) (s : string) : option string :=
  match takeLetters k s with
  | Some (letters, rest) =>
      match takeUsd rest with
      | Some usd => Some (String.append letters usd)
      | None => None
      end
  | None => None
  end.

(** The quantifier is greedy: the longest run of letters is tried first. *)
Fixpoint firstMatch (ks : list nat) (s : string) : option string :=
  match ks with
  | [] => None
  | k :: r =>
      match matchWith k s with
      | Some m => Some m
      | None => firstMatch r s
      end
  end.

Definition matchHere (s : string) : option string :=
  firstMatch [10; 9; 8; 7; 6; 5; 4; 3; 2]%nat s.

(** [text.match(/([A-Z]{2,10}USDT?)/i)]: the leftmost match. *)
Fixpoint searchSymbol (s : string) : option string :=
  match matchHere s with
  | Some m => Some m
  | None =>
      match s with
      | EmptyString => None
      | String _ r => searchSymbol r
      end
  end.

Definition extractSymbolFromText (text : string) : jsval :=
  match searchSymbol text with
  | Some m => str (toUpperCase m)
  | None => null
  end.

End ReceiverExtras.

(** ** Runs of all four ledger operations *)

Module LedgerOps.
Import PortfolioManager Ledger.

Inductive Op :=
| opOpen (newId : string) (now : Z) (sg : Signal)
| opClose (positionId : string) (closePrice0 : Q) (reason0 : string) (now : Z)
| opUpdate (marketData : string -> option Q) (now : Z)
| opRebalance (now : Z).

Definition applyOp (st : State) (op : Op) : State :=
  match op with
  | opOpen newId now sg => snd (openPosition st newId now sg)
  | opClose pid price r now => snd (closePosition st pid price r now)
  | opUpdate marketData now => updatePositions st marketData now
  | opRebalance now => rebalancePortfolio st now
  end.

Definition runOps (st : State) (l : list Op) : State := fold_left applyOp l st.

(** Every position is stored under its own id. *)
Definition keyed (st : State) : Prop :=
  Forall (fun e => id (snd e) = fst e) (positions st).

(** The excursions of every open position have the sign of their name. *)
Definition excursionsSigned (st : State) : Prop :=
  Forall (fun p => maxDrawdown p <= 0 /\ 0 <= maxProfit p)
    (JsMap.values (positions st)).

Definition bookOK (st : State) : Prop :=
  JsMap.wf (positions st) /\ keyed st /\ excursionsSigned st.

(** The number of open positions is within the limit. *)
Definition withinCapacity (st : State) : Prop :=
  inject_Z (Z.of_nat (JsMap.size (positions st))) <= maxOpenPositions st.

(** A candidate the sizing can divide for: its price is not [0] and its stop
    is not at its price. *)
Definition regular (sg : Signal) : Prop :=
  ~ sg_price sg == 0 /\ ~ sg_stopLoss sg == sg_price sg.

Definition regularOps (l : list Op) : Prop :=
  Forall (fun op => match op with
                    | opOpen _ _ sg => regular sg
                    | _ => True
                    end) l.

(** Every opening of the run is long and regular, and is given an id that is
    not open. *)
Fixpoint longOps (st : State) (l : list Op) : Prop :=
  match l with
  | [] => True
  | op :: r =>
      match op with
      | opOpen newId _ sg =>
          sg_side sg = "long"%string
          /\ regular sg
          /\ JsMap.get newId (positions st) = None
      | _ => True
      end /\ longOps (applyOp st op) r
  end.

(** The position after its revaluation at a price, and whether the price is
    at or beyond its stop or its target. *)
Definition revalued (p : Position) (price : Q) : Position :=
  let unrealized := calculatePnL p price in
  let pnlPercent := unrealized / (size p * entryPrice p) in
  setMetrics unrealized (Qmin (maxDrawdown p) pnlPercent)
    (Qmax (maxProfit p) pnlPercent) p.

Definition crossed (p : Position) (price : Q) : bool :=
  if String.eqb (side p) "long"
  then Qle_bool price (stopLoss p) || Qle_bool (takeProfit p) price
  else Qle_bool (stopLoss p) price || Qle_bool price (takeProfit p).

(** The price an update uses for a position: a quote that is there and is
    not [0]. *)
Definition quoted (marketData : string -> option Q) (p : Position) : option Q :=
  match marketData (symbol p) with
  | Some price => if Qeq_bool price 0 then None else Some price
  | None => None
  end.

(** The exit thresholds of a position are not crossed at a price. *)
Definition insideThresholds (p : Position) (price : Q) : Prop :=
  if String.eqb (side p) "long"
  then stopLoss p < price /\ price < takeProfit p
  else takeProfit p < price /\ price < stopLoss p.


Definition sameSettings (st st' : State) : Prop :=
  initialCapital st' = initialCapital st
  /\ maxRiskPerTrade st' = maxRiskPerTrade st
  /\ maxPortfolioRisk st' = maxPortfolioRisk st
  /\ maxOpenPositions st' = maxOpenPositions st.

Definition sound (st : State) : Prop :=
  JsMap.wf (positions st) /\ allLong st /\ reconciles st.

(** What closing, revaluing and logging have in common: they keep the
    settings, open nothing, and keep a well-formed book well formed and a
    reconciled long book reconciled. *)
Definition tame (st st' : State) : Prop :=
  sameSettings st st'
  /\ (JsMap.size (positions st') <= JsMap.size (positions st))%nat
  /\ (bookOK st -> bookOK st')
  /\ (sound st -> sound st').

(** What [updatePositions] leaves under one key. *)
Definition afterUpdate (marketData : string -> option Q) (o : option Position)
    : option Position :=
  match o with
  | None => None
  | Some p =>
      match quoted marketData p with
      | None => Some p
      | Some price => if crossed p price then None else Some (revalued p price)
      end
  end.

End LedgerOps.

(** ** Vocabulary for the receiver's window, queue and history *)

Module ReceiverVocabulary.
Import WebhookReceiver.

(** Entries under different ids with one symbol and one action are at least
    the TTL apart. *)
Definition spaced (st : State) : Prop :=
  forall k1 e1 k2 e2,
    In (k1, e1) (recentSignals st) -> In (k2, e2) (recentSignals st) ->
    k1 <> k2 -> symbol e1 = symbol e2 -> action e1 = action e2 ->
    (signalTTL st <= Z.abs (timestamp e1 - timestamp e2))%Z.

Definition windowOK (st : State) : Prop :=
  JsMap.wf (recentSignals st)
  /\ Forall (fun e => id (snd e) = fst e) (recentSignals st)
  /\ spaced st.

(** The actions [processSignal] has a case for, and the events the trading
    manager listens to. *)
Definition dispatchedActions : list string :=
  ["buy"; "sell"; "close"; "long"; "short"; "exit"]%string.

Definition listened (ev : Event) : bool :=
  match ev with
  | buySignal _ | sellSignal _ | closeSignal _ => true
  | _ => false
  end.


End ReceiverVocabulary.

Module ReceiverScenarios.
Import WebhookReceiver.

(** A stand-in for the platform's HMAC that answers two bytes, and requests
    signed with other bytes, with one byte, and with the same bytes in upper
    case. *)
Definition toyDigest : string -> string -> string := fun _ _ => "00ff"%string.
Definition toyStringify : Payload -> string := fun _ => "{}"%string.

Definition signedWith (sig : string) : Request :=
  mkRequest "52.89.214.238" (str sig)
    (mkPayload (str "BTCUSDT") undefined (str "buy") undefined).

End ReceiverScenarios.

(** ** More scenarios *)

Module ExtraScenarios.
Import PortfolioManager Ledger LedgerScenarios LedgerOps.

(** Two long positions that reach their targets. *)
Definition runOpsWins : State :=
  runOps (constructor defaultConfig)
    [opOpen "pos_1" 0 exampleEntry; opUpdate (quote 107) 60000;
     opOpen "pos_2" 120000 exampleEntry; opUpdate (quote 110) 180000].

(** Two positions on pairs of the ETH group. *)
Definition pairEntry (sym : string) : Signal :=
  {| sg_symbol := sym; sg_strategy := "EMACrossover"; sg_side := "long";
     sg_price := 100; sg_stopLoss := 98; sg_takeProfit := 106 |}.


(** Positions recorded under bare tickers, as the table expects them. *)
Definition bareBook : State :=
  run (constructor defaultConfig)
    [callOpen "pos_1" 0 (pairEntry "ETH"); callOpen "pos_2" 1 (pairEntry "LTC")].

(** Five openings fill a default manager; the sixth is turned away. *)
Definition smallStop (sym : string) : Signal :=
  {| sg_symbol := sym; sg_strategy := "GoldScalping"; sg_side := "long";
     sg_price := 2000; sg_stopLoss := 1990; sg_takeProfit := 2025 |}.

Definition sixOpenings : list Op :=
  [opOpen "pos_1" 0 (smallStop "XAUUSD"); opOpen "pos_2" 1 (smallStop "EURUSD");
   opOpen "pos_3" 2 (smallStop "GBPUSD"); opOpen "pos_4" 3 (smallStop "USDJPY");
   opOpen "pos_5" 4 (smallStop "BTCUSD"); opOpen "pos_6" 5 (smallStop "ETHUSD")].

(** A long position stopped out by an update, another one swept by the
    rebalancing. *)
Definition stopAndSweep : list Op :=
  [opOpen "pos_1" 0 exampleEntry; opUpdate (quote 97) 60000;
   opOpen "pos_2" 120000 wideStop; opUpdate (quote 80) 180000;
   opRebalance 240000].

(** Two long positions, the first revalued up and then down without reaching
    a threshold. *)
Definition quietRun : list Op :=
  [opOpen "pos_1" 0 exampleEntry; opUpdate (quote 101) 60000;
   opOpen "pos_2" 120000 xauusd; opUpdate (quote 99) 180000].

End ExtraScenarios.

(** * Properties *)

(** ** Facts about insertion-ordered maps *)

Module JsMapFacts.
Import JsMap.
Section Facts.
Context {V : Type}.
Implicit Types (m : JsMap.t V) (k : string) (v : V).

Lemma get_set_same k v m : get k (set k v m) = Some v.
Proof.
  induction m as [|[k' v'] r IH]; simpl.
  - now rewrite String.eqb_refl.
  - destruct (String.eqb k k') eqn:E; simpl; rewrite ?String.eqb_refl, ?E; auto.
Qed.

Lemma get_set_other k k' v m : k <> k' -> get k' (set k v m) = get k' m.
Proof.
  intros Hne. induction m as [|[k0 v0] r IH]; simpl.
  - destruct (String.eqb k' k) eqn:E; auto.
    apply String.eqb_eq in E. congruence.
  - destruct (String.eqb k k0) eqn:E; simpl.
    + apply String.eqb_eq in E. subst k0.
      destruct (String.eqb k' k) eqn:E'; auto.
      apply String.eqb_eq in E'. congruence.
    + now rewrite IH.
Qed.

Lemma get_delete_same k m : get k (delete k m) = None.
Proof.
  unfold delete. induction m as [|[k' v'] r IH]; simpl; auto.
  destruct (String.eqb k k') eqn:E; simpl; auto. now rewrite E.
Qed.

Lemma get_delete_other k k' m : k <> k' -> get k' (delete k m) = get k' m.
Proof.
  intros Hne. unfold delete. induction m as [|[k0 v0] r IH]; simpl; auto.
  destruct (String.eqb k k0) eqn:E; simpl.
  - apply String.eqb_eq in E. subst k0.
    destruct (String.eqb k' k) eqn:E'; auto.
    apply String.eqb_eq in E'. congruence.
  - now rewrite IH.
Qed.

Lemma get_none_notin k m : get k m = None <-> ~ In k (keys m).
Proof.
  induction m as [|[k' v'] r IH]; simpl.
  - tauto.
  - destruct (String.eqb k k') eqn:E.
    + apply String.eqb_eq in E. subst. split; [discriminate | tauto].
    + apply String.eqb_neq in E. rewrite IH. split; [intros H [H'|H']|]; try tauto.
      congruence.
Qed.

Lemma get_some_in k v m : get k m = Some v -> In (k, v) m.
Proof.
  induction m as [|[k' v'] r IH]; simpl; [discriminate|].
  destruct (String.eqb k k') eqn:E.
  - apply String.eqb_eq in E. intros [= ->]. subst. now left.
  - auto.
Qed.

Lemma in_get_some k v m : wf m -> In (k, v) m -> get k m = Some v.
Proof.
  unfold wf. induction m as [|[k' v'] r IH]; simpl; [tauto|].
  intros Hnd [H|H]; inversion Hnd; subst.
  - injection H as -> ->. now rewrite String.eqb_refl.
  - destruct (String.eqb k k') eqn:E; auto.
    apply String.eqb_eq in E. subst k'.
    exfalso. apply H2. change k with (fst (k, v)). now apply in_map.
Qed.

(** A fresh key is appended. *)
Lemma set_fresh k v m : get k m = None -> set k v m = m ++ [(k, v)].
Proof.
  induction m as [|[k' v'] r IH]; simpl; auto.
  destruct (String.eqb k k'); [discriminate|].
  intros H. now rewrite IH.
Qed.

Lemma delete_absent k m : get k m = None -> delete k m = m.
Proof.
  unfold delete. induction m as [|[k' v'] r IH]; simpl; auto.
  destruct (String.eqb k k'); [discriminate|]. simpl.
  intros H. now rewrite IH.
Qed.

(** Deleting a present key of a well-formed map removes one entry. *)
Lemma delete_present k v m :
  wf m -> get k m = Some v ->
  exists m1 m2, m = m1 ++ (k, v) :: m2 /\ delete k m = m1 ++ m2.
Proof.
  unfold wf. induction m as [|[k' v'] r IH]; simpl; [discriminate|].
  intros Hnd. inversion Hnd as [|? ? Hnotin Hnd']; subst.
  destruct (String.eqb_spec k k') as [<-|Hne].
  - intros [= ->].
    exists [], r. split; auto.
    unfold delete. simpl. rewrite ?String.eqb_refl. simpl.
    apply delete_absent. now apply get_none_notin.
  - intros Hget. destruct (IH Hnd' Hget) as (m1 & m2 & -> & Hd).
    exists ((k', v') :: m1), m2. split; auto.
    unfold delete in *. simpl.
    destruct (String.eqb_spec k k'); [contradiction|]. simpl. now rewrite Hd.
Qed.

Lemma keys_set_fresh k v m : get k m = None -> keys (set k v m) = keys m ++ [k].
Proof.
  intros H. rewrite set_fresh by auto. unfold keys. now rewrite map_app.
Qed.

Lemma keys_set_present k v m : get k m <> None -> keys (set k v m) = keys m.
Proof.
  induction m as [|[k' v'] r IH]; simpl; [congruence|].
  destruct (String.eqb k k') eqn:E; simpl.
  - apply String.eqb_eq in E. now subst.
  - intros H. now rewrite IH.
Qed.

Lemma wf_empty : wf (@empty V).
Proof. constructor. Qed.

Lemma wf_set k v m : wf m -> wf (set k v m).
Proof.
  unfold wf. intros Hnd. destruct (get k m) eqn:E.
  - rewrite keys_set_present; [auto | congruence].
  - rewrite keys_set_fresh by auto.
    apply NoDup_app; auto.
    + constructor; [intros []|constructor].
    + intros x Hx [<-|[]]. now apply get_none_notin in E.
Qed.

Lemma keys_delete k m : keys (delete k m) = filter (fun x => negb (String.eqb k x)) (keys m).
Proof.
  unfold delete, keys. induction m as [|[k' v'] r IH]; simpl; auto.
  destruct (String.eqb k k'); simpl; now rewrite IH.
Qed.

Lemma wf_delete k m : wf m -> wf (delete k m).
Proof.
  unfold wf. rewrite keys_delete. apply NoDup_filter.
Qed.
End Facts.
End JsMapFacts.

(** ** The position ledger *)

Module LedgerFacts.
Import PortfolioManager Ledger LedgerScenarios.

(** *** Sums over rationals *)

Lemma sumOver_acc {A : Type} (f : A -> Q) (l : list A) (a : Q) :
  fold_left (fun acc x => acc + f x) l a == a + sumOver f l.
Proof.
  unfold sumOver. revert a. induction l as [|x l IH]; intros a; simpl.
  - lra.
  - rewrite (IH (a + f x)), (IH (0 + f x)). lra.
Qed.

Lemma sumOver_nil {A : Type} (f : A -> Q) : sumOver f [] == 0.
Proof. unfold sumOver. simpl. lra. Qed.

Lemma sumOver_cons {A : Type} (f : A -> Q) (x : A) (l : list A) :
  sumOver f (x :: l) == f x + sumOver f l.
Proof. unfold sumOver at 1. simpl. rewrite sumOver_acc. lra. Qed.

Lemma sumOver_app {A : Type} (f : A -> Q) (l1 l2 : list A) :
  sumOver f (l1 ++ l2) == sumOver f l1 + sumOver f l2.
Proof.
  induction l1 as [|x l1 IH]; simpl.
  - rewrite sumOver_nil. lra.
  - rewrite !sumOver_cons, IH. lra.
Qed.

Lemma openValue_sumOver (st : State) :
  getOpenPositionsValue st
  = sumOver (fun pos => size pos * entryPrice pos) (JsMap.values (positions st)).
Proof. reflexivity. Qed.

Lemma portfolioRisk_sumOver (st : State) :
  getCurrentPortfolioRisk st = sumOver positionRisk (JsMap.values (positions st)).
Proof. reflexivity. Qed.

(** *** Booleans and comparisons *)

Lemma Qlt_bool_iff (x y : Q) : Qlt_bool x y = true <-> x < y.
Proof.
  unfold Qlt_bool. rewrite negb_true_iff.
  split.
  - intros H. apply Qnot_le_lt. intros Hle. apply Qle_bool_iff in Hle. congruence.
  - intros H. destruct (Qle_bool y x) eqn:E; auto.
    apply Qle_bool_iff in E. lra.
Qed.

Lemma Qle_bool_false (x y : Q) : Qle_bool x y = false <-> ~ x <= y.
Proof.
  rewrite <- Qle_bool_iff. destruct (Qle_bool x y); split; congruence.
Qed.

(** *** What [closePosition] does *)

Lemma closePosition_unknown st pid price r now :
  JsMap.get pid (positions st) = None ->
  closePosition st pid price r now = (None, st).
Proof. unfold closePosition. now intros ->. Qed.

Lemma closePosition_open st pid p price r now :
  JsMap.get pid (positions st) = Some p ->
  exists trade st',
    closePosition st pid price r now = (Some trade, st')
    /\ closedWith st st' pid p price r
    /\ currentCapital st' = currentCapital st + size p * price
    /\ closeTimestamp trade = now
    /\ emitted st' = emitted st ++ [positionClosed trade]
    /\ initialCapital st' = initialCapital st
    /\ maxRiskPerTrade st' = maxRiskPerTrade st
    /\ maxPortfolioRisk st' = maxPortfolioRisk st.
Proof.
  intros Hget. unfold closePosition. rewrite Hget.
  eexists _, _. split; [reflexivity|].
  split; [|simpl; auto 10].
  eexists. simpl. repeat split; reflexivity.
Qed.

(** C7: a first [closePosition] on an open id appends exactly one closed trade
    and removes the position from the open set; a second call on that id, and
    any call on an id that is not open, returns the not-found result and
    leaves the state (open set, closed trades, capital) as it was. *)
Theorem closePosition_idempotent st pid price r now :
  (JsMap.get pid (positions st) = None ->
   closePosition st pid price r now = (None, st))
  /\ (forall p, JsMap.get pid (positions st) = Some p ->
      exists trade st1,
        closePosition st pid price r now = (Some trade, st1)
        /\ closedTrades st1 = closedTrades st ++ [trade]
        /\ positions st1 = JsMap.delete pid (positions st)
        /\ JsMap.get pid (positions st1) = None
        /\ forall price2 r2 now2,
             closePosition st1 pid price2 r2 now2 = (None, st1)).
Proof.
  split; [apply closePosition_unknown|].
  intros p Hget.
  destruct (closePosition_open st pid p price r now Hget)
    as (trade & st1 & Hclose & (trade' & Hts & _ & _ & _ & _ & Hps) & _).
  assert (Hgone : JsMap.get pid (positions st1) = None)
    by (rewrite Hps; apply JsMapFacts.get_delete_same).
  exists trade, st1. repeat split; auto.
  - unfold closePosition in Hclose. rewrite Hget in Hclose.
    injection Hclose as <- <-. reflexivity.
  - intros. now apply closePosition_unknown.
Qed.

(** *** What [openPosition] does *)

Lemma canOpenPosition_true st sym strat price :
  fst (canOpenPosition st sym strat price) = true ->
  canOpenPosition st sym strat price = (true, st).
Proof.
  unfold canOpenPosition. simpl.
  destruct (allChecks (admissionChecks st sym strat price)); [reflexivity|discriminate].
Qed.

Lemma canOpenPosition_false st sym strat price :
  fst (canOpenPosition st sym strat price) = false ->
  canOpenPosition st sym strat price
  = (false, emit (positionRejected sym strat (admissionChecks st sym strat price)) st).
Proof.
  unfold canOpenPosition. simpl.
  destruct (allChecks (admissionChecks st sym strat price)); [discriminate|reflexivity].
Qed.

Lemma openPosition_admitted st newId now sg :
  fst (canOpenPosition st (sg_symbol sg) (sg_strategy sg) (sg_price sg)) = true ->
  openPosition st newId now sg
  = (Some (opened st newId now sg),
     emit (positionOpened (opened st newId now sg))
       (setLedger (currentCapital st - calculatePositionSize st sg * sg_price sg)
          (JsMap.set newId (opened st newId now sg) (positions st))
          (closedTrades st) st)).
Proof.
  intros H. unfold openPosition. rewrite (canOpenPosition_true _ _ _ _ H). reflexivity.
Qed.

Lemma openPosition_rejected st newId now sg :
  fst (canOpenPosition st (sg_symbol sg) (sg_strategy sg) (sg_price sg)) = false ->
  openPosition st newId now sg
  = (None,
     emit (positionRejected (sg_symbol sg) (sg_strategy sg)
             (admissionChecks st (sg_symbol sg) (sg_strategy sg) (sg_price sg))) st).
Proof.
  intros H. unfold openPosition. rewrite (canOpenPosition_false _ _ _ _ H). reflexivity.
Qed.

(** C8: for an admitted signal of either side (with a price to divide by),
    [openPosition] followed by [closePosition] at the entry price brings
    [currentCapital] back to its value before the open, and the closed trade
    has [realizedPnL = 0]. *)
Theorem open_close_round_trip st newId now sg r now' :
  ~ sg_price sg == 0 ->
  fst (canOpenPosition st (sg_symbol sg) (sg_strategy sg) (sg_price sg)) = true ->
  exists pos st1 trade st2,
    openPosition st newId now sg = (Some pos, st1)
    /\ closePosition st1 (id pos) (sg_price sg) r now' = (Some trade, st2)
    /\ tradePosition trade = setStatus "closed" pos
    /\ currentCapital st2 == currentCapital st
    /\ realizedPnL trade == 0.
Proof.
  intros _ Hadm.
  rewrite (openPosition_admitted _ newId now _ Hadm).
  set (pos := opened st newId now sg).
  eexists pos, _. 
  assert (Hget : JsMap.get (id pos)
            (positions (emit (positionOpened pos)
               (setLedger (currentCapital st - calculatePositionSize st sg * sg_price sg)
                  (JsMap.set newId pos (positions st)) (closedTrades st) st)))
          = Some pos) by (simpl; apply JsMapFacts.get_set_same).
  destruct (closePosition_open _ _ _ (sg_price sg) r now' Hget)
    as (trade & st2 & Hclose & (t' & _) & Hcap & _).
  exists trade, st2. split; [reflexivity|]. split; [exact Hclose|].
  unfold closePosition in Hclose. rewrite Hget in Hclose.
  injection Hclose as <- <-. simpl.
  repeat split.
  - lra.
  - unfold calculatePnL. simpl. destruct (String.eqb (sg_side sg) "long"); lra.
Qed.

(** *** Position sizing *)


(** The committed value never exceeds 80% of the available capital. *)
Lemma calculatePositionSize_capped st sg :
  0 < sg_price sg ->
  calculatePositionSize st sg * sg_price sg <= 0.8 * getAvailableCapital st.
Proof.
  intros Hp. unfold calculatePositionSize, getAvailableCapital.
  set (v := currentCapital st * maxRiskPerTrade st
            / (Qabs (sg_price sg - sg_stopLoss sg) / sg_price sg)).
  assert (E : Qmin v (currentCapital st * 0.8) / sg_price sg * sg_price sg
              == Qmin v (currentCapital st * 0.8)) by (field; lra).
  rewrite E. pose proof (Q.le_min_r v (currentCapital st * 0.8)). lra.
Qed.



Lemma open_close_round_trip_witness :
  exists pos st1 trade st2,
    openPosition (constructor defaultConfig) "pos_1" 0 xauusd = (Some pos, st1)
    /\ closePosition st1 (id pos) (sg_price xauusd) "manual" 3600000 = (Some trade, st2)
    /\ tradePosition trade = setStatus "closed" pos
    /\ currentCapital st2 == currentCapital (constructor defaultConfig)
    /\ realizedPnL trade == 0.
Proof.
  apply (open_close_round_trip (constructor defaultConfig) "pos_1" 0 xauusd
           "manual" 3600000).
  - vm_compute. discriminate.
  - vm_compute. reflexivity.
Defined.

Lemma closePosition_idempotent_witness :
  let st := snd (openPosition (constructor defaultConfig) "pos_1" 0 xauusd) in
  JsMap.get "pos_1" (positions st) <> None
  /\ exists trade st1,
       closePosition st "pos_1" 2010 "manual" 3600000 = (Some trade, st1)
       /\ closedTrades st1 = closedTrades st ++ [trade]
       /\ positions st1 = JsMap.delete "pos_1" (positions st)
       /\ JsMap.get "pos_1" (positions st1) = None
       /\ forall price2 r2 now2,
            closePosition st1 "pos_1" price2 r2 now2 = (None, st1).
Proof.
  intros st. split; [vm_compute; discriminate|].
  eapply (proj2 (closePosition_idempotent st "pos_1" 2010 "manual" 3600000)).
  vm_compute. reflexivity.
Defined.

(** *** Exit conditions *)

Lemma checkExit_closes st pid p price now r :
  JsMap.get pid (positions st) = Some p ->
  closedWith st (snd (closePosition st pid price r now)) pid p price r.
Proof.
  intros Hget.
  destruct (closePosition_open st pid p price r now Hget) as (t & st' & -> & H & _).
  exact H.
Qed.

Lemma calculatePnL_long p price :
  side p = "long"%string -> calculatePnL p price = size p * (price - entryPrice p).
Proof. unfold calculatePnL. now intros ->. Qed.

Lemma calculatePnL_short p price :
  side p <> "long"%string -> calculatePnL p price = size p * (entryPrice p - price).
Proof.
  unfold calculatePnL. intros H.
  destruct (String.eqb_spec (side p) "long"); [contradiction|reflexivity].
Qed.

Ltac exit_cases :=
  repeat match goal with
  | H : _ <= _ |- _ => apply Qle_bool_iff in H; rewrite H
  | H : ~ _ <= _ |- _ => apply Qle_bool_false in H; rewrite H
  end.

(** C4: the exit check closes an open long position with reason [stop_loss]
    when [price <= stopLoss] and with reason [take_profit] when
    [price >= takeProfit] (and the stop is not crossed); a short position is the
    mirror image.  One trade is appended per tick, so one reason fires, and
    the stop wins when both thresholds are crossed.  A long position with entry
    100, stop 98 and target 106 closes on a tick of 97 with [stop_loss] and
    [realizedPnL = size * (97 - 100)], and on a tick of 107 with
    [take_profit]. *)
Theorem exit_determinism st pid p price now :
  JsMap.get pid (positions st) = Some p ->
  let st' := checkExitConditions st pid p price now in
  (side p = "long"%string ->
     (price <= stopLoss p -> closedWith st st' pid p price "stop_loss")
     /\ (~ price <= stopLoss p -> takeProfit p <= price ->
         closedWith st st' pid p price "take_profit")
     /\ (~ price <= stopLoss p -> ~ takeProfit p <= price -> st' = st))
  /\ (side p <> "long"%string ->
     (stopLoss p <= price -> closedWith st st' pid p price "stop_loss")
     /\ (~ stopLoss p <= price -> price <= takeProfit p ->
         closedWith st st' pid p price "take_profit")
     /\ (~ stopLoss p <= price -> ~ price <= takeProfit p -> st' = st))
  /\ (side p = "long"%string -> entryPrice p = 100 -> stopLoss p = 98 ->
      takeProfit p = 106 ->
      (price = 97 ->
       exists trade,
         closedTrades st' = closedTrades st ++ [trade]
         /\ reason trade = "stop_loss"%string
         /\ realizedPnL trade = size p * (97 - 100))
      /\ (price = 107 ->
          exists trade,
            closedTrades st' = closedTrades st ++ [trade]
            /\ reason trade = "take_profit"%string)).
Proof.
  intros Hget st'. subst st'. unfold checkExitConditions.
  split; [|split].
  - intros Hside. rewrite Hside. simpl.
    repeat split; intros; exit_cases; simpl; auto using checkExit_closes.
  - intros Hside. destruct (String.eqb_spec (side p) "long"); [contradiction|].
    repeat split; intros; exit_cases; simpl; auto using checkExit_closes.
  - intros Hside He Hs Ht. rewrite Hside, Hs, Ht. simpl.
    split; intros ->; simpl.
    + destruct (checkExit_closes st pid p 97 now "stop_loss" Hget)
        as (trade & Hts & _ & _ & Hr & Hpnl & _).
      exists trade. repeat split; auto.
      rewrite Hpnl, calculatePnL_long, He by assumption. reflexivity.
    + destruct (checkExit_closes st pid p 107 now "take_profit" Hget)
        as (trade & Hts & _ & _ & Hr & _).
      exists trade. now split.
Qed.

Lemma exit_determinism_witness :
  (exists trade,
     closedTrades (checkExitConditions exampleBook "pos_1" exampleLong 97 60000)
     = closedTrades exampleBook ++ [trade]
     /\ reason trade = "stop_loss"%string
     /\ realizedPnL trade = size exampleLong * (97 - 100))
  /\ closedWith exampleBook
       (checkExitConditions exampleBook "pos_1" exampleLong 107 60000)
       "pos_1" exampleLong 107 "take_profit".
Proof.
  split.
  - apply (proj2 (proj2 (exit_determinism exampleBook "pos_1" exampleLong 97 60000
                           eq_refl))); reflexivity.
  - apply (proj1 (exit_determinism exampleBook "pos_1" exampleLong 107 60000 eq_refl));
      [reflexivity | simpl; lra | simpl; lra].
Defined.

(** *** The risk budget *)

Lemma checkRiskBudget_true st strat price :
  checkRiskBudget st strat price = true ->
  getCurrentPortfolioRisk st + maxRiskPerTrade st <= maxPortfolioRisk st.
Proof. unfold checkRiskBudget. apply Qle_bool_iff. Qed.

Lemma admitted_riskBudget st sym strat price :
  fst (canOpenPosition st sym strat price) = true ->
  checkRiskBudget st strat price = true.
Proof.
  unfold canOpenPosition, allChecks. simpl.
  intros H. repeat (apply andb_true_iff in H; destruct H as [H ?]). assumption.
Qed.

Lemma positionRisk_opened st newId now sg :
  positionRisk (opened st newId now sg) = stopFraction sg.
Proof. reflexivity. Qed.

(** An admitted opening under a new id adds its stop fraction to the
    portfolio risk. *)
Lemma portfolioRisk_after_open st newId now sg :
  fst (canOpenPosition st (sg_symbol sg) (sg_strategy sg) (sg_price sg)) = true ->
  JsMap.get newId (positions st) = None ->
  getCurrentPortfolioRisk (snd (openPosition st newId now sg))
  == getCurrentPortfolioRisk st + stopFraction sg.
Proof.
  intros Hadm Hfresh. rewrite (openPosition_admitted _ _ _ _ Hadm).
  rewrite !portfolioRisk_sumOver. simpl.
  rewrite JsMapFacts.set_fresh by assumption.
  unfold JsMap.values. rewrite map_app, sumOver_app. simpl.
  rewrite sumOver_cons, sumOver_nil, positionRisk_opened. lra.
Qed.

Lemma openPosition_settings st newId now sg :
  let st' := snd (openPosition st newId now sg) in
  maxRiskPerTrade st' = maxRiskPerTrade st
  /\ maxPortfolioRisk st' = maxPortfolioRisk st
  /\ initialCapital st' = initialCapital st.
Proof.
  destruct (fst (canOpenPosition st (sg_symbol sg) (sg_strategy sg) (sg_price sg)))
    eqn:E.
  - rewrite (openPosition_admitted _ _ _ _ E). simpl. auto.
  - rewrite (openPosition_rejected _ _ _ _ E). simpl. auto.
Qed.

Lemma openPosition_keys st newId now sg k :
  k <> newId ->
  JsMap.get k (positions (snd (openPosition st newId now sg)))
  = JsMap.get k (positions st).
Proof.
  intros Hne.
  destruct (fst (canOpenPosition st (sg_symbol sg) (sg_strategy sg) (sg_price sg)))
    eqn:E.
  - rewrite (openPosition_admitted _ _ _ _ E). simpl.
    apply JsMapFacts.get_set_other. congruence.
  - rewrite (openPosition_rejected _ _ _ _ E). reflexivity.
Qed.

Lemma openPosition_isSome st newId now sg :
  isSome (fst (openPosition st newId now sg))
  = fst (canOpenPosition st (sg_symbol sg) (sg_strategy sg) (sg_price sg)).
Proof.
  destruct (fst (canOpenPosition st (sg_symbol sg) (sg_strategy sg) (sg_price sg)))
    eqn:E.
  - now rewrite (openPosition_admitted _ _ _ _ E).
  - now rewrite (openPosition_rejected _ _ _ _ E).
Qed.

Lemma riskBudgetHolds_from l : forall st,
  freshIds st l ->
  Forall (fun o => stopFraction (o_signal o) <= maxRiskPerTrade st) l ->
  riskBudgetHolds st l.
Proof.
  unfold riskBudgetHolds.
  induction l as [|o l IH]; intros st [Hnd Hfresh] Hstops; simpl; [constructor|].
  inversion Hnd as [|? ? Hnotin Hnd']; subst.
  inversion Hstops as [|? ? Hstop Hstops']; subst.
  pose proof (openPosition_settings st (o_id o) (o_now o) (o_signal o)) as Hset.
  pose proof (openPosition_isSome st (o_id o) (o_now o) (o_signal o)) as Hsome.
  pose proof (portfolioRisk_after_open st (o_id o) (o_now o) (o_signal o)) as Hrisk.
  pose proof (fun k => openPosition_keys st (o_id o) (o_now o) (o_signal o) k) as Hkeys.
  destruct (openPosition st (o_id o) (o_now o) (o_signal o)) as [res st'].
  simpl in *. destruct Hset as (Hr & Hp & _).
  constructor.
  - simpl. intros Hadm. rewrite Hsome in Hadm.
    specialize (Hrisk Hadm (Hfresh o (or_introl eq_refl))).
    pose proof (checkRiskBudget_true _ _ _ (admitted_riskBudget _ _ _ _ Hadm)).
    rewrite Hrisk, Hp. lra.
  - apply IH.
    + split; auto. intros o' Hin. rewrite Hkeys; auto.
      intros Heq. apply Hnotin. rewrite <- Heq. now apply in_map.
    + rewrite Hr. assumption.
Qed.

(** C1 (amended): on a manager of any configuration, for every sequence of
    openings under distinct ids in which each signal has a non-zero price and
    a stop distance [|price - stopLoss| / price] of at most [maxRiskPerTrade],
    the sum over the open positions of [|entryPrice - stopLoss| / entryPrice]
    is at most [maxPortfolioRisk] after every admission. *)
Theorem risk_budget_bounded_stops config l :
  NoDup (map o_id l) ->
  Forall (fun o => boundedStop (constructor config) (o_signal o)) l ->
  riskBudgetHolds (constructor config) l.
Proof.
  intros Hnd Hstops. apply riskBudgetHolds_from.
  - split; auto.
  - eapply Forall_impl; [|exact Hstops]. now intros o [_ H].
Qed.

(** C1 (as stated) fails: a fresh manager with the default limits admits a
    signal with price 100 and stop 50, and the portfolio risk is then 0.5,
    above [maxPortfolioRisk = 0.10]. *)
Lemma risk_budget_counterexample :
  ~ riskBudgetHolds (constructor defaultConfig) [mkOpening "pos_1" 0 wideStop].
Proof.
  unfold riskBudgetHolds. intros H. inversion H as [|? ? Hhd _]; subst.
  specialize (Hhd eq_refl). vm_compute in Hhd. now apply Hhd.
Qed.

Lemma risk_budget_bounded_stops_witness :
  riskBudgetHolds (constructor defaultConfig)
    [mkOpening "pos_1" 0 xauusd; mkOpening "pos_2" 1000 exampleEntry].
Proof.
  apply (risk_budget_bounded_stops defaultConfig).
  - repeat constructor; simpl; intuition discriminate.
  - repeat constructor; vm_compute; discriminate.
Defined.

(** *** Capital reconciliation *)

Lemma openValue_after_open st newId now sg :
  fst (canOpenPosition st (sg_symbol sg) (sg_strategy sg) (sg_price sg)) = true ->
  JsMap.get newId (positions st) = None ->
  getOpenPositionsValue (snd (openPosition st newId now sg))
  == getOpenPositionsValue st + calculatePositionSize st sg * sg_price sg.
Proof.
  intros Hadm Hfresh. rewrite (openPosition_admitted _ _ _ _ Hadm).
  rewrite !openValue_sumOver. simpl.
  rewrite JsMapFacts.set_fresh by assumption.
  unfold JsMap.values. rewrite map_app, sumOver_app. simpl.
  rewrite sumOver_cons, sumOver_nil. simpl. lra.
Qed.

Lemma openValue_after_delete (m : JsMap.t Position) pid p :
  JsMap.wf m -> JsMap.get pid m = Some p ->
  sumOver committed (JsMap.values (JsMap.delete pid m))
  == sumOver committed (JsMap.values m) - committed p.
Proof.
  intros Hwf Hget.
  destruct (JsMapFacts.delete_present pid p m Hwf Hget) as (m1 & m2 & -> & ->).
  unfold JsMap.values. rewrite !map_app. simpl.
  rewrite !sumOver_app, sumOver_cons. lra.
Qed.

Lemma values_delete_incl (m : JsMap.t Position) pid p :
  In p (JsMap.values (JsMap.delete pid m)) -> In p (JsMap.values m).
Proof.
  unfold JsMap.values, JsMap.delete. rewrite !in_map_iff.
  intros ((k, v) & <- & Hin). apply filter_In in Hin. exists (k, v). tauto.
Qed.

Lemma step_open_reconciles st newId now sg :
  JsMap.wf (positions st) -> allLong st -> reconciles st ->
  sg_side sg = "long"%string -> JsMap.get newId (positions st) = None ->
  let st' := snd (openPosition st newId now sg) in
  JsMap.wf (positions st') /\ allLong st' /\ reconciles st'.
Proof.
  intros Hwf Hlong Hrec Hside Hfresh.
  destruct (fst (canOpenPosition st (sg_symbol sg) (sg_strategy sg) (sg_price sg)))
    eqn:E.
  - pose proof (openValue_after_open st newId now sg E Hfresh) as Hval.
    rewrite (openPosition_admitted _ _ _ _ E) in *. simpl. repeat split.
    + simpl. now apply JsMapFacts.wf_set.
    + unfold allLong. simpl. rewrite JsMapFacts.set_fresh by assumption.
      unfold JsMap.values. rewrite map_app. apply Forall_app. split; auto.
      simpl. constructor; [exact Hside|constructor].
    + unfold reconciles in *. simpl in *. rewrite Hval. lra.
  - rewrite (openPosition_rejected _ _ _ _ E). simpl. auto.
Qed.

Lemma step_close_reconciles st pid price r now :
  JsMap.wf (positions st) -> allLong st -> reconciles st ->
  let st' := snd (closePosition st pid price r now) in
  JsMap.wf (positions st') /\ allLong st' /\ reconciles st'.
Proof.
  intros Hwf Hlong Hrec. unfold closePosition.
  destruct (JsMap.get pid (positions st)) as [p|] eqn:Hget; simpl; auto.
  repeat split.
  - now apply JsMapFacts.wf_delete.
  - unfold allLong in *. simpl. rewrite Forall_forall in *.
    intros q Hq. apply Hlong. eapply values_delete_incl; eauto.
  - unfold reconciles in *. simpl.
    rewrite openValue_sumOver in *. simpl.
    change (fun pos => size pos * entryPrice pos) with committed in *.
    rewrite (openValue_after_delete _ _ _ Hwf Hget), sumOver_app, sumOver_cons,
      sumOver_nil.
    simpl. rewrite calculatePnL_long.
    + unfold committed in *. lra.
    + unfold allLong in Hlong. rewrite Forall_forall in Hlong. apply Hlong.
      apply JsMapFacts.get_some_in in Hget.
      unfold JsMap.values. apply in_map_iff. now exists (pid, p).
Qed.

(** On the long side the ledger reconciles: any run of [openPosition] and
    [closePosition] calls that opens long positions only, under new ids, keeps
    [currentCapital + sum of size * entryPrice] equal to
    [initialCapital + sum of realizedPnL]. *)
Lemma capital_reconciles_long_only l : forall st,
  JsMap.wf (positions st) -> allLong st -> reconciles st ->
  longAndFresh st l ->
  reconciles (run st l).
Proof.
  unfold run.
  induction l as [|c l IH]; intros st Hwf Hlong Hrec Hok; simpl; auto.
  destruct Hok as [Hc Hrest].
  destruct c as [newId now sg | pid price r now]; simpl in *.
  - destruct Hc as (Hside & _ & Hfresh).
    destruct (step_open_reconciles st newId now sg Hwf Hlong Hrec Hside Hfresh)
      as (? & ? & ?).
    apply IH; auto.
  - destruct (step_close_reconciles st pid price r now Hwf Hlong Hrec) as (? & ? & ?).
    apply IH; auto.
Qed.

Lemma fresh_manager_reconciles config :
  let st := constructor config in
  JsMap.wf (positions st) /\ allLong st /\ reconciles st.
Proof.
  simpl. split; [apply JsMapFacts.wf_empty|]. split; [constructor|].
  unfold reconciles, getOpenPositionsValue, sumOver. simpl. lra.
Qed.

(** C2 on the short side: a fresh manager with capital 10000 opens the short
    (80 units at 100) and closes it at 90.  The trade's [realizedPnL] is +800,
    yet [closePosition] credits [size * closePrice = 7200], so the capital is
    9200 where the reconciliation asks for [10000 + 800]. *)
Theorem short_close_breaks_reconciliation :
  let st := run (constructor defaultConfig) shortRoundTrip in
  JsMap.size (positions st) = 0%nat
  /\ sumOver realizedPnL (closedTrades st) == 800
  /\ currentCapital st + getOpenPositionsValue st == 9200
  /\ initialCapital st + sumOver realizedPnL (closedTrades st) == 10800
  /\ ~ reconciles st.
Proof.
  simpl. repeat split; try (vm_compute; reflexivity).
  unfold reconciles. vm_compute. discriminate.
Qed.

(** *** Rebalancing *)

Lemma extends_refl st : extends st st.
Proof. split; exists []; now rewrite app_nil_r. Qed.

Lemma extends_trans st1 st2 st3 : extends st1 st2 -> extends st2 st3 -> extends st1 st3.
Proof.
  intros [[ts1 Ht1] [ev1 He1]] [[ts2 Ht2] [ev2 He2]]. split.
  - exists (ts1 ++ ts2). now rewrite Ht2, Ht1, app_assoc.
  - exists (ev1 ++ ev2). now rewrite He2, He1, app_assoc.
Qed.

Lemma extends_emit e st : extends st (emit e st).
Proof. split; [exists []|exists [e]]; simpl; now rewrite ?app_nil_r. Qed.

Lemma extends_close st pid price r now :
  extends st (snd (closePosition st pid price r now)).
Proof.
  unfold closePosition. destruct (JsMap.get pid (positions st)); simpl.
  - split; eexists; simpl; reflexivity.
  - apply extends_refl.
Qed.

Lemma rebalanceStep_extends now st k : extends st (rebalanceStep now st k).
Proof.
  unfold rebalanceStep. destruct (JsMap.get k (positions st)) as [p|];
    [|apply extends_refl].
  destruct (Qlt_bool 0.25 (pnlPercentOf p)), (Qlt_bool (pnlPercentOf p) (-0.15));
    eauto using extends_trans, extends_emit, extends_close, extends_refl.
Qed.

Lemma rebalance_fold_extends now ks : forall st,
  extends st (fold_left (rebalanceStep now) ks st).
Proof.
  induction ks as [|k ks IH]; intros st; simpl.
  - apply extends_refl.
  - eapply extends_trans; [apply rebalanceStep_extends | apply IH].
Qed.

Lemma closePosition_others st pid price r now k :
  k <> pid ->
  JsMap.get k (positions (snd (closePosition st pid price r now)))
  = JsMap.get k (positions st).
Proof.
  intros Hne. unfold closePosition.
  destruct (JsMap.get pid (positions st)); simpl; auto.
  apply JsMapFacts.get_delete_other. congruence.
Qed.

Lemma rebalanceStep_others now st k pid :
  pid <> k ->
  JsMap.get pid (positions (rebalanceStep now st k)) = JsMap.get pid (positions st).
Proof.
  intros Hne. unfold rebalanceStep.
  destruct (JsMap.get k (positions st)) as [p|]; auto.
  destruct (Qlt_bool 0.25 (pnlPercentOf p)), (Qlt_bool (pnlPercentOf p) (-0.15));
    simpl; auto using closePosition_others.
Qed.

(** The step of a position down more than 15%. *)
Lemma rebalanceStep_loss now st pid p :
  JsMap.get pid (positions st) = Some p ->
  pnlPercentOf p < -0.15 ->
  closedWith st (rebalanceStep now st pid) pid p
    (entryPrice p * (1 + pnlPercentOf p)) "rebalance_loss".
Proof.
  intros Hget Hloss. unfold rebalanceStep. rewrite Hget.
  assert (Hgain : Qlt_bool 0.25 (pnlPercentOf p) = false).
  { destruct (Qlt_bool 0.25 (pnlPercentOf p)) eqn:E; auto.
    apply Qlt_bool_iff in E. lra. }
  apply Qlt_bool_iff in Hloss. rewrite Hloss, Hgain.
  now apply checkExit_closes.
Qed.

(** The step of a position that is not down more than 15%. *)
Lemma rebalanceStep_keeps now st pid p :
  JsMap.get pid (positions st) = Some p ->
  ~ pnlPercentOf p < -0.15 ->
  JsMap.get pid (positions (rebalanceStep now st pid)) = Some p
  /\ (0.25 < pnlPercentOf p ->
      emitted (rebalanceStep now st pid)
      = emitted st ++ [partialProfitSuggestion p (pnlPercentOf p)]).
Proof.
  intros Hget Hno. unfold rebalanceStep. rewrite Hget.
  assert (Hloss : Qlt_bool (pnlPercentOf p) (-0.15) = false).
  { destruct (Qlt_bool (pnlPercentOf p) (-0.15)) eqn:E; auto.
    apply Qlt_bool_iff in E. contradiction. }
  rewrite Hloss.
  destruct (Qlt_bool 0.25 (pnlPercentOf p)) eqn:E; simpl; split; auto.
  intros H. apply Qlt_bool_iff in H. congruence.
Qed.

Lemma rebalance_fold_gone now pid ks : forall st,
  JsMap.get pid (positions st) = None ->
  JsMap.get pid (positions (fold_left (rebalanceStep now) ks st)) = None.
Proof.
  induction ks as [|k ks IH]; intros st Hnone; simpl; auto.
  apply IH. destruct (String.eqb_spec pid k) as [<-|Hne].
  - unfold rebalanceStep. now rewrite Hnone.
  - now rewrite rebalanceStep_others.
Qed.

Lemma rebalance_fold_kept now pid p ks : forall st,
  JsMap.get pid (positions st) = Some p ->
  ~ pnlPercentOf p < -0.15 ->
  JsMap.get pid (positions (fold_left (rebalanceStep now) ks st)) = Some p.
Proof.
  induction ks as [|k ks IH]; intros st Hget Hno; simpl; auto.
  apply IH; auto. destruct (String.eqb_spec pid k) as [<-|Hne].
  - now apply rebalanceStep_keeps.
  - now rewrite rebalanceStep_others.
Qed.

Lemma rebalance_fold_loss now pid p ks : forall st,
  In pid ks ->
  JsMap.get pid (positions st) = Some p ->
  pnlPercentOf p < -0.15 ->
  let st' := fold_left (rebalanceStep now) ks st in
  JsMap.get pid (positions st') = None
  /\ exists ts trade,
       closedTrades st' = closedTrades st ++ ts
       /\ In trade ts
       /\ tradePosition trade = setStatus "closed" p
       /\ closePrice trade = entryPrice p * (1 + pnlPercentOf p)
       /\ reason trade = "rebalance_loss"%string.
Proof.
  induction ks as [|k ks IH]; intros st Hin Hget Hloss; simpl in *; [tauto|].
  destruct (String.eqb_spec pid k) as [<-|Hne].
  - destruct (rebalanceStep_loss now st pid p Hget Hloss)
      as (trade & Hts & Hpos & Hprice & Hr & _ & Hps).
    split.
    + apply rebalance_fold_gone. rewrite Hps. apply JsMapFacts.get_delete_same.
    + destruct (rebalance_fold_extends now ks (rebalanceStep now st pid))
        as [[ts Hts'] _].
      exists ([trade] ++ ts), trade. rewrite Hts', Hts, <- app_assoc.
      repeat split; auto. now left.
  - destruct Hin as [Heq|Hin]; [congruence|].
    destruct (IH (rebalanceStep now st k) Hin) as (Hgone & ts & trade & Hts & H);
      auto.
    { now rewrite rebalanceStep_others. }
    split; auto.
    destruct (rebalanceStep_extends now st k) as [[ts0 Hts0] _].
    exists (ts0 ++ ts), trade. rewrite Hts, Hts0, <- app_assoc.
    destruct H as (Hin' & H). repeat split; try tauto.
    apply in_or_app. now right.
Qed.

Lemma rebalance_fold_gain now pid p ks : forall st,
  In pid ks ->
  JsMap.get pid (positions st) = Some p ->
  0.25 < pnlPercentOf p ->
  let st' := fold_left (rebalanceStep now) ks st in
  exists evs,
    emitted st' = emitted st ++ evs
    /\ In (partialProfitSuggestion p (pnlPercentOf p)) evs.
Proof.
  induction ks as [|k ks IH]; intros st Hin Hget Hgain; simpl in *; [tauto|].
  assert (Hno : ~ pnlPercentOf p < -0.15) by lra.
  destruct (String.eqb_spec pid k) as [<-|Hne].
  - destruct (rebalanceStep_keeps now st pid p Hget Hno) as [_ Hev].
    destruct (rebalance_fold_extends now ks (rebalanceStep now st pid))
      as [_ [evs Hevs]].
    exists ([partialProfitSuggestion p (pnlPercentOf p)] ++ evs).
    rewrite Hevs, (Hev Hgain), <- app_assoc. split; auto. now left.
  - destruct Hin as [Heq|Hin]; [congruence|].
    destruct (IH (rebalanceStep now st k) Hin) as (evs & Hevs & Hin'); auto.
    { now rewrite rebalanceStep_others. }
    destruct (rebalanceStep_extends now st k) as [_ [evs0 Hevs0]].
    exists (evs0 ++ evs). rewrite Hevs, Hevs0, <- app_assoc. split; auto.
    apply in_or_app. now right.
Qed.

Lemma get_some_key (m : JsMap.t Position) pid p :
  JsMap.get pid m = Some p -> In pid (JsMap.keys m).
Proof.
  intros H. apply JsMapFacts.get_some_in in H.
  unfold JsMap.keys. apply in_map_iff. now exists (pid, p).
Qed.

(** C9 (amended): [rebalancePortfolio] closes every open position whose
    unrealized loss fraction is beyond -15%, at the price
    [entryPrice * (1 + fraction)] and with the reason [rebalance_loss], which
    is not one of [stop_loss], [take_profit], [manual], [rebalance],
    [shutdown]; for every position whose unrealized gain fraction is above 25%
    it emits the advisory [partialProfitSuggestion] and leaves the position
    open. *)
Theorem rebalance_backstop st now pid p :
  JsMap.get pid (positions st) = Some p ->
  let st' := rebalancePortfolio st now in
  (pnlPercentOf p < -0.15 ->
     JsMap.get pid (positions st') = None
     /\ exists ts trade,
          closedTrades st' = closedTrades st ++ ts
          /\ In trade ts
          /\ tradePosition trade = setStatus "closed" p
          /\ closePrice trade = entryPrice p * (1 + pnlPercentOf p)
          /\ reason trade = "rebalance_loss"%string
          /\ ~ In (reason trade) declaredCloseReasons)
  /\ (0.25 < pnlPercentOf p ->
      JsMap.get pid (positions st') = Some p
      /\ exists evs,
           emitted st' = emitted st ++ evs
           /\ In (partialProfitSuggestion p (pnlPercentOf p)) evs).
Proof.
  intros Hget st'. subst st'. unfold rebalancePortfolio.
  pose proof (get_some_key _ _ _ Hget) as Hin.
  split.
  - intros Hloss.
    destruct (rebalance_fold_loss now pid p _ st Hin Hget Hloss)
      as (Hgone & ts & trade & Hts & Hin' & Hpos & Hprice & Hr).
    split; [exact Hgone|].
    exists ts, trade. simpl. repeat split; auto.
    rewrite Hr. simpl. intuition discriminate.
  - intros Hgain. split.
    + simpl. apply rebalance_fold_kept; auto. lra.
    + destruct (rebalance_fold_gain now pid p _ st Hin Hget Hgain)
        as (evs & Hevs & Hin').
      exists (evs ++ [portfolioRebalanced]). simpl.
      rewrite Hevs, <- app_assoc. split; auto. apply in_or_app. now left.
Qed.

(** C9 (as stated) fails: the position that is down 20% is closed by the
    sweep, and the reason recorded on the trade is [rebalance_loss], not
    [rebalance]. *)
Lemma rebalance_reason_counterexample :
  JsMap.get "pos_1" (positions fallenBook) = Some (positionOf fallenBook "pos_1")
  /\ pnlPercentOf (positionOf fallenBook "pos_1") < -0.15
  /\ map reason (closedTrades (rebalancePortfolio fallenBook 120000))
     = ["rebalance_loss"%string]
  /\ ~ (exists trade,
          In trade (closedTrades (rebalancePortfolio fallenBook 120000))
          /\ reason trade = "rebalance"%string).
Proof.
  assert (H : map reason (closedTrades (rebalancePortfolio fallenBook 120000))
              = ["rebalance_loss"%string]) by (vm_compute; reflexivity).
  repeat split; auto; try (vm_compute; reflexivity).
  intros (trade & Hin & Hr).
  apply (in_map reason) in Hin. rewrite H, Hr in Hin.
  simpl in Hin. intuition discriminate.
Qed.

Lemma rebalance_backstop_witness :
  (JsMap.get "pos_1" (positions (rebalancePortfolio fallenBook 120000)) = None
   /\ exists ts trade,
        closedTrades (rebalancePortfolio fallenBook 120000)
        = closedTrades fallenBook ++ ts
        /\ In trade ts
        /\ tradePosition trade = setStatus "closed" (positionOf fallenBook "pos_1")
        /\ closePrice trade
           = entryPrice (positionOf fallenBook "pos_1")
             * (1 + pnlPercentOf (positionOf fallenBook "pos_1"))
        /\ reason trade = "rebalance_loss"%string
        /\ ~ In (reason trade) declaredCloseReasons)
  /\ (JsMap.get "pos_1" (positions (rebalancePortfolio risenBook 120000))
      = Some (positionOf risenBook "pos_1")
      /\ exists evs,
           emitted (rebalancePortfolio risenBook 120000) = emitted risenBook ++ evs
           /\ In (partialProfitSuggestion (positionOf risenBook "pos_1")
                    (pnlPercentOf (positionOf risenBook "pos_1"))) evs).
Proof.
  split.
  - apply (proj1 (rebalance_backstop fallenBook 120000 "pos_1"
                    (positionOf fallenBook "pos_1") eq_refl)).
    vm_compute. reflexivity.
  - apply (proj2 (rebalance_backstop risenBook 120000 "pos_1"
                    (positionOf risenBook "pos_1") eq_refl)).
    vm_compute. reflexivity.
Defined.

End LedgerFacts.

(** ** The webhook intake *)

Module IntakeFacts.
Import WebhookReceiver Intake IntakeScenarios.

Lemma strictEq_eq (a b : jsval) : strictEq a b = true <-> a = b.
Proof.
  destruct a, b; simpl; split; try congruence; try discriminate.
  - intros H. apply String.eqb_eq in H. now subst.
  - intros [= ->]. apply String.eqb_refl.
Qed.

Lemma matches_iff st sg e :
  matches st sg e = true <-> withinWindow st e sg.
Proof.
  unfold matches, withinWindow.
  rewrite !andb_true_iff, !strictEq_eq, Z.ltb_lt. tauto.
Qed.

(** The classification of [isDuplicateSignal]. *)
Lemma isDuplicateSignal_iff st sg :
  isDuplicateSignal st sg = true
  <-> exists e, In e (JsMap.values (recentSignals st)) /\ withinWindow st e sg.
Proof.
  unfold isDuplicateSignal. rewrite existsb_exists.
  split; intros (e & Hin & H); exists e; split; auto; now apply matches_iff.
Qed.

(** *** The recent-signal window *)

Lemma get_filter_kept {V : Type} (keep : string * V -> bool) k v (m : JsMap.t V) :
  JsMap.get k m = Some v -> keep (k, v) = true ->
  JsMap.get k (filter keep m) = Some v.
Proof.
  induction m as [|[k' v'] r IH]; simpl; [discriminate|].
  destruct (String.eqb_spec k k') as [<-|Hne].
  - intros [= ->] Hk. rewrite Hk. simpl. now rewrite String.eqb_refl.
  - intros Hget Hk. destruct (keep (k', v')); simpl; auto.
    destruct (String.eqb_spec k k'); [contradiction|auto].
Qed.

Lemma cleanOldSignals_keeps st k sg clean :
  JsMap.get k (recentSignals st) = Some sg ->
  survives st sg clean ->
  JsMap.get k (recentSignals (cleanOldSignals st clean)) = Some sg.
Proof.
  intros Hget Hs. unfold cleanOldSignals. simpl.
  apply get_filter_kept; auto. simpl.
  apply negb_true_iff, Z.ltb_ge. exact Hs.
Qed.

(** [processSignal] stores the signal before it looks at its validity. *)
Lemma processSignal_window st sg clean :
  snd (processSignal st sg clean)
  = cleanOldSignals
      (setRecentSignals (JsMap.set (id sg) sg (recentSignals st)) st) clean.
Proof. unfold processSignal. now destruct (isValidSignal sg). Qed.

Lemma processSignal_event st sg clean :
  fst (processSignal st sg clean)
  = if isValidSignal sg then dispatch sg else invalidSignal sg.
Proof. unfold processSignal. now destruct (isValidSignal sg). Qed.

Lemma processSignal_stores st sg clean :
  survives st sg clean ->
  JsMap.get (id sg) (recentSignals (snd (processSignal st sg clean))) = Some sg.
Proof.
  intros Hs. rewrite processSignal_window.
  apply cleanOldSignals_keeps; auto. simpl. apply JsMapFacts.get_set_same.
Qed.

Lemma processSignal_keeps st sg clean k e :
  JsMap.get k (recentSignals st) = Some e ->
  id sg <> k -> survives st e clean ->
  JsMap.get k (recentSignals (snd (processSignal st sg clean))) = Some e.
Proof.
  intros Hget Hne Hs. rewrite processSignal_window.
  apply cleanOldSignals_keeps; auto. simpl.
  now rewrite JsMapFacts.get_set_other.
Qed.

(** *** The route *)

Lemma serve_duplicate st a :
  isDuplicateSignal st (signalOf a) = true ->
  serve st a = (duplicateIgnored, [], st).
Proof. unfold serve, postWebhook, signalOf. now intros ->. Qed.

Lemma serve_fresh st a :
  isDuplicateSignal st (signalOf a) = false ->
  serve st a
  = (received a,
     [if isValidSignal (signalOf a) then dispatch (signalOf a)
      else invalidSignal (signalOf a)],
     snd (processSignal st (signalOf a) (nowClean (a_env a)))).
Proof.
  unfold serve, postWebhook, signalOf, received. intros ->.
  set (sg := parseWebhookData _ _ _).
  unfold processSignal. now destruct (isValidSignal sg).
Qed.

Lemma serve_received st a :
  fst (fst (serve st a)) = received a ->
  isDuplicateSignal st (signalOf a) = false.
Proof.
  destruct (isDuplicateSignal st (signalOf a)) eqn:E; auto.
  rewrite (serve_duplicate _ _ E). discriminate.
Qed.

Lemma serve_ttl st a : signalTTL (snd (serve st a)) = signalTTL st.
Proof.
  destruct (isDuplicateSignal st (signalOf a)) eqn:E.
  - now rewrite (serve_duplicate _ _ E).
  - rewrite (serve_fresh _ _ E). simpl. now rewrite processSignal_window.
Qed.

Lemma survives_ttl st st' sg clean :
  signalTTL st' = signalTTL st -> survives st sg clean -> survives st' sg clean.
Proof. unfold survives. now intros ->. Qed.

Lemma serve_keeps st a k e :
  JsMap.get k (recentSignals st) = Some e ->
  newId (a_env a) <> k -> survives st e (nowClean (a_env a)) ->
  JsMap.get k (recentSignals (snd (serve st a))) = Some e.
Proof.
  intros Hget Hne Hs.
  destruct (isDuplicateSignal st (signalOf a)) eqn:E.
  - now rewrite (serve_duplicate _ _ E).
  - rewrite (serve_fresh _ _ E). simpl. now apply processSignal_keeps.
Qed.

Lemma serveAll_ttl mid : forall st, signalTTL (serveAll st mid) = signalTTL st.
Proof.
  unfold serveAll. induction mid as [|m mid IH]; intros st; simpl; auto.
  now rewrite IH, serve_ttl.
Qed.

Lemma serveAll_keeps mid : forall st e,
  JsMap.get (id e) (recentSignals st) = Some e ->
  undisturbed st e mid ->
  JsMap.get (id e) (recentSignals (serveAll st mid)) = Some e.
Proof.
  unfold serveAll, undisturbed.
  induction mid as [|m mid IH]; intros st e Hget Hund; simpl; auto.
  inversion Hund as [|? ? [Hne Hs] Hrest]; subst.
  apply IH.
  - now apply serve_keeps.
  - eapply Forall_impl; [|exact Hrest]. simpl. intros x [? ?]. split; auto.
    eapply survives_ttl; [apply serve_ttl|assumption].
Qed.

Lemma window_entry_duplicates st k e sg :
  JsMap.get k (recentSignals st) = Some e ->
  withinWindow st e sg ->
  isDuplicateSignal st sg = true.
Proof.
  intros Hget Hw. apply isDuplicateSignal_iff. exists e. split; auto.
  apply JsMapFacts.get_some_in in Hget.
  unfold JsMap.values. apply in_map_iff. now exists (k, e).
Qed.

Lemma duplicate_not_admitted st tm b :
  serve st b = (duplicateIgnored, [], st) -> admitted st tm b = false.
Proof. unfold admitted. now intros ->. Qed.

(** While the entry of [a] stays in the window, a later signal with its
    symbol and action, less than the TTL after it, is turned away. *)
Lemma later_signal_suppressed st a mid b tm :
  isDuplicateSignal st (signalOf a) = false ->
  survives st (signalOf a) (nowClean (a_env a)) ->
  undisturbed st (signalOf a) mid ->
  withinWindow st (signalOf a) (signalOf b) ->
  let st2 := serveAll (snd (serve st a)) mid in
  serve st2 b = (duplicateIgnored, [], st2) /\ admitted st2 tm b = false.
Proof.
  intros Hfresh Hs Hund Hw st2.
  assert (Hdup : serve st2 b = (duplicateIgnored, [], st2)).
  { apply serve_duplicate. subst st2.
    apply (window_entry_duplicates _ (id (signalOf a)) (signalOf a)).
    - apply serveAll_keeps.
      + rewrite (serve_fresh _ _ Hfresh). cbn [snd]. now apply processSignal_stores.
      + unfold undisturbed in *. eapply Forall_impl; [|exact Hund]. simpl.
        intros x [? ?]. split; auto.
        eapply survives_ttl; [apply serve_ttl|assumption].
    - unfold withinWindow in *. now rewrite serveAll_ttl, serve_ttl. }
  split; auto. now apply duplicate_not_admitted.
Qed.

Lemma servedBefore_undisturbed st a mid b :
  servedBefore a mid b ->
  withinWindow st (signalOf a) (signalOf b) ->
  survives st (signalOf a) (nowClean (a_env a))
  /\ undisturbed st (signalOf a) mid.
Proof.
  unfold servedBefore, withinWindow, survives, undisturbed. simpl.
  intros (Hab & Hclean & Hmid) (_ & _ & Hw). split; [lia|].
  eapply Forall_impl; [|exact Hmid]. simpl. intros m [Hm Hid]. split; [exact Hid|].
  unfold survives. simpl. lia.
Qed.

(** C6 (amended): a signal is classified a duplicate exactly when the window
    holds a signal with the same symbol and the same action that arrived less
    than [signalTTL] before it; of two such signals at most one is admitted:
    when the earlier one is answered [received], the later one is answered
    [duplicate_ignored], emits nothing and is not put on the queue (requests
    being served in order by a clock that does not run backwards, under ids
    that are not reused). *)
Theorem dedup_at_most_one st a mid b tm :
  (isDuplicateSignal st (signalOf a) = true
   <-> exists e, In e (JsMap.values (recentSignals st))
                 /\ symbol e = symbol (signalOf a)
                 /\ action e = action (signalOf a)
                 /\ (timestamp (signalOf a) - timestamp e < signalTTL st)%Z)
  /\ (fst (fst (serve st a)) = received a ->
      servedBefore a mid b ->
      withinWindow st (signalOf a) (signalOf b) ->
      let st2 := serveAll (snd (serve st a)) mid in
      serve st2 b = (duplicateIgnored, [], st2)
      /\ admitted st2 tm b = false).
Proof.
  split; [apply isDuplicateSignal_iff|].
  intros Hrec Hord Hw.
  destruct (servedBefore_undisturbed st a mid b Hord Hw) as [Hs Hund].
  apply later_signal_suppressed; auto. now apply serve_received.
Qed.

(** C10: a signal that is not a duplicate and fails validation is answered
    [received] and emits [invalidSignal] only, so it is not admitted; it is
    nevertheless in the recent-signal window, stored before validation ran,
    and a later signal with its symbol and action that arrives less than
    [signalTTL] after it is answered [duplicate_ignored] and not admitted. *)
Theorem invalid_signal_occupies_window st a mid b tm :
  isDuplicateSignal st (signalOf a) = false ->
  isValidSignal (signalOf a) = false ->
  servedBefore a mid b ->
  withinWindow st (signalOf a) (signalOf b) ->
  let st1 := snd (serve st a) in
  let st2 := serveAll st1 mid in
  serve st a = (received a, [invalidSignal (signalOf a)], st1)
  /\ st1 = cleanOldSignals
             (setRecentSignals
                (JsMap.set (id (signalOf a)) (signalOf a) (recentSignals st)) st)
             (nowClean (a_env a))
  /\ JsMap.get (id (signalOf a)) (recentSignals st1) = Some (signalOf a)
  /\ admitted st tm a = false
  /\ serve st2 b = (duplicateIgnored, [], st2)
  /\ admitted st2 tm b = false.
Proof.
  intros Hfresh Hinv Hord Hw st1 st2.
  destruct (servedBefore_undisturbed st a mid b Hord Hw) as [Hs Hund].
  pose proof (serve_fresh _ _ Hfresh) as Hserve. rewrite Hinv in Hserve.
  assert (Hst1 : st1 = snd (processSignal st (signalOf a) (nowClean (a_env a))))
    by (subst st1; now rewrite Hserve).
  split; [now rewrite Hst1|].
  split; [now rewrite Hst1, processSignal_window|].
  split; [rewrite Hst1; now apply processSignal_stores|].
  split.
  - unfold admitted. rewrite Hserve. unfold heard. simpl.
    now rewrite Nat.ltb_irrefl.
  - now apply later_signal_suppressed.
Qed.

(** *** Three alerts for one symbol *)

(** C6 (as stated) fails: three alerts for the same symbol and action arrive
    at 0 s, 30 s and 50 s.  The second and the third are 20 s apart, within
    the TTL of 60 s, and both are duplicates of the first: neither of the two
    is admitted. *)
Lemma dedup_exactly_one_counterexample :
  let z := buyBTC "tv_1" 0 in
  let a := buyBTC "tv_2" 30000 in
  let b := buyBTC "tv_3" 50000 in
  let st1 := snd (serve freshReceiver z) in
  let st2 := snd (serve st1 a) in
  withinWindow st1 (signalOf a) (signalOf b)
  /\ fst (fst (serve st1 a)) = duplicateIgnored
  /\ fst (fst (serve st2 b)) = duplicateIgnored
  /\ xorb (admitted st1 activeManager a) (admitted st2 activeManager b) = false.
Proof. vm_compute. repeat split; reflexivity. Qed.

Lemma dedup_at_most_one_witness :
  let a := buyBTC "tv_1" 0 in
  let m := alert (str "ETHUSDT") (str "sell") "tv_2" 10000 in
  let b := buyBTC "tv_3" 50000 in
  let st2 := serveAll (snd (serve freshReceiver a)) [m] in
  admitted freshReceiver activeManager a = true
  /\ serve st2 b = (duplicateIgnored, [], st2)
  /\ admitted st2 activeManager b = false.
Proof.
  intros a m b st2. split; [reflexivity|].
  apply (proj2 (dedup_at_most_one freshReceiver a [m] b activeManager)).
  - reflexivity.
  - repeat split; try (vm_compute; discriminate).
    repeat constructor; [vm_compute; discriminate | simpl; discriminate].
  - repeat split; vm_compute; reflexivity.
Defined.

Lemma invalid_signal_occupies_window_witness :
  let a := buyGold "tv_1" 0 in
  let b := buyGold "tv_2" 45000 in
  let st1 := snd (serve freshReceiver a) in
  serve freshReceiver a = (received a, [invalidSignal (signalOf a)], st1)
  /\ JsMap.get "tv_1" (recentSignals st1) = Some (signalOf a)
  /\ admitted freshReceiver activeManager a = false
  /\ serve st1 b = (duplicateIgnored, [], st1)
  /\ admitted st1 activeManager b = false.
Proof.
  intros a b st1.
  destruct (invalid_signal_occupies_window freshReceiver a [] b activeManager)
    as (H1 & _ & H3 & H4 & H5 & H6).
  - reflexivity.
  - reflexivity.
  - repeat split; try (vm_compute; discriminate). constructor.
  - repeat split; vm_compute; reflexivity.
  - repeat split; assumption.
Defined.

(** *** The signature check *)

Section Signature.
Variable hmacSha256Hex : string -> string -> string.
Variable jsonStringify : Payload -> string.

Local Abbreviation checkSignature := (signatureMiddleware hmacSha256Hex jsonStringify).
Local Abbreviation handle := (handleWebhook hmacSha256Hex jsonStringify).
Local Abbreviation expected := (expectedBytes hmacSha256Hex jsonStringify).

Lemma no_secret_skips_check st req :
  truthy (webhookSecret st) = false -> checkSignature st req = None.
Proof.
  unfold signatureMiddleware. now intros ->.
Qed.

(** With a secret configured, a signature of the right length that is not
    the expected one is answered 401 and nothing is processed. *)
Lemma wrong_signature_rejected st env req secret sig :
  ipMiddleware st req = None ->
  webhookSecret st = str secret -> secret <> EmptyString ->
  req_signature req = str sig -> sig <> EmptyString ->
  List.length (bufferFromHex sig)
  = List.length (expected secret (req_body req)) ->
  bufferFromHex sig <> expected secret (req_body req) ->
  handle st env req = (respond 401 (errorBody "Invalid signature"), [], st).
Proof.
  intros Hip Hsec Hs Hsig Hg Hlen Hne.
  unfold handleWebhook, signatureMiddleware, verifySignature,
    timingSafeEqual.
  rewrite Hip, Hsec, Hsig. simpl.
  apply String.eqb_neq in Hs, Hg. rewrite Hs, Hg. simpl.
  fold (expected secret (req_body req)).
  rewrite Hlen, Nat.eqb_refl.
  now destruct (list_eq_dec Nat.eq_dec (bufferFromHex sig)
                  (expected secret (req_body req))).
Qed.

(** The expected signature, in either case of the hexadecimal digits, lets
    the request through. *)
Lemma matching_signature_passes st req secret sig :
  webhookSecret st = str secret ->
  req_signature req = str sig ->
  bufferFromHex sig = expected secret (req_body req) ->
  checkSignature st req = None.
Proof.
  intros Hsec Hsig Heq.
  unfold signatureMiddleware, verifySignature, timingSafeEqual.
  rewrite Hsec, Hsig. simpl.
  destruct (String.eqb secret EmptyString); simpl; auto.
  destruct (String.eqb sig EmptyString); simpl; auto.
  fold (expected secret (req_body req)).
  rewrite Heq, Nat.eqb_refl.
  now destruct (list_eq_dec Nat.eq_dec (expected secret (req_body req))
                  (expected secret (req_body req))).
Qed.

(** A signature that decodes to another number of bytes makes
    [timingSafeEqual] throw: the request is not processed, and the answer
    is the server error of the framework, not 401. *)
Lemma other_length_signature_throws st env req secret sig :
  ipMiddleware st req = None ->
  webhookSecret st = str secret -> secret <> EmptyString ->
  req_signature req = str sig -> sig <> EmptyString ->
  List.length (bufferFromHex sig)
  <> List.length (expected secret (req_body req)) ->
  handle st env req = (unhandledError, [], st).
Proof.
  intros Hip Hsec Hs Hsig Hg Hlen.
  unfold handleWebhook, signatureMiddleware, verifySignature,
    timingSafeEqual.
  rewrite Hip, Hsec, Hsig. simpl.
  apply String.eqb_neq in Hs, Hg. rewrite Hs, Hg. simpl.
  fold (expected secret (req_body req)).
  apply Nat.eqb_neq in Hlen. now rewrite Hlen.
Qed.

(** Without the header (or with an empty one) [verifySignature] answers
    [true] whatever the secret. *)
Lemma missing_signature_skips_check st req :
  truthy (req_signature req) = false -> checkSignature st req = None.
Proof.
  intros Hsig. unfold signatureMiddleware, verifySignature.
  rewrite Hsig. destruct (truthy (webhookSecret st)); reflexivity.
Qed.

(** C3 at a request without the signature header: the receiver has a secret
    configured, the request carries no [x-tradingview-signature], and it is
    answered 200 [received], stored in the window and put on the queue of
    the trading manager, where the claim asks for 401 and no processing. *)
Theorem unsigned_request_is_processed :
  let a := buyBTC "tv_1" 0 in
  truthy (webhookSecret securedReceiver) = true
  /\ req_signature (a_req a) = undefined
  /\ checkSignature securedReceiver (a_req a) = None
  /\ exists st' tm',
       TradingManager.arrive hmacSha256Hex jsonStringify
         (securedReceiver, activeManager) (a_env a) (a_req a)
       = (received a, (st', tm'))
       /\ JsMap.get "tv_1" (recentSignals st') = Some (signalOf a)
       /\ map TradingManager.q_signal (TradingManager.signalQueue tm')
          = [signalOf a].
Proof.
  intros a. repeat split.
  eexists _, _. repeat split.
Qed.
End Signature.

End IntakeFacts.

(** ** More facts about insertion-ordered maps *)

Module JsMapExtras.
Import JsMap.
Section Facts.
Context {V : Type}.
Implicit Types (m : JsMap.t V) (k : string) (v : V).

Lemma in_set k v m e : In e (set k v m) -> e = (k, v) \/ In e m.
Proof.
  induction m as [|[k' v'] r IH]; simpl.
  - intros [<-|[]]. now left.
  - destruct (String.eqb k k'); simpl.
    + intros [<-|H]; auto.
    + intros [<-|H]; auto. destruct (IH H); auto.
Qed.

Lemma in_delete k m e : In e (delete k m) -> In e m.
Proof. unfold delete. intros H. now apply filter_In in H. Qed.

Lemma size_set_le k v m : (size (set k v m) <= S (size m))%nat.
Proof.
  unfold size. induction m as [|[k' v'] r IH]; simpl; auto.
  destruct (String.eqb k k'); simpl; lia.
Qed.

Lemma size_delete_le k m : (size (delete k m) <= size m)%nat.
Proof. unfold size, delete. apply filter_length_le. Qed.

(** A present key is updated in place. *)
Lemma set_present k v v' m :
  get k m = Some v ->
  exists m1 m2, m = m1 ++ (k, v) :: m2 /\ set k v' m = m1 ++ (k, v') :: m2.
Proof.
  induction m as [|[k' v0] r IH]; simpl; [discriminate|].
  destruct (String.eqb_spec k k') as [<-|Hne].
  - intros [= ->]. now exists [], r.
  - intros Hget. destruct (IH Hget) as (m1 & m2 & -> & ->).
    now exists ((k', v0) :: m1), m2.
Qed.

Lemma forall_values_set (P : V -> Prop) k v m :
  Forall P (values m) -> P v -> Forall P (values (set k v m)).
Proof.
  unfold values. rewrite !Forall_forall. intros Hall Hv x Hx.
  apply in_map_iff in Hx. destruct Hx as ([k' v'] & <- & Hin).
  destruct (in_set _ _ _ _ Hin) as [[= -> ->]|Hin']; auto.
  apply Hall. apply in_map_iff. now exists (k', v').
Qed.

Lemma forall_values_delete (P : V -> Prop) k m :
  Forall P (values m) -> Forall P (values (delete k m)).
Proof.
  unfold values. rewrite !Forall_forall. intros Hall x Hx.
  apply in_map_iff in Hx. destruct Hx as (e & <- & Hin).
  apply Hall. apply in_map. eapply in_delete; eauto.
Qed.

Lemma get_in_values k v m : get k m = Some v -> In v (values m).
Proof.
  intros H. apply JsMapFacts.get_some_in in H.
  unfold values. apply in_map_iff. now exists (k, v).
Qed.

Lemma in_keys_get k m : In k (keys m) -> exists v, get k m = Some v.
Proof.
  intros Hin. destruct (get k m) eqn:E; eauto.
  now apply JsMapFacts.get_none_notin in E.
Qed.
End Facts.
End JsMapExtras.

(** ** More on the position ledger *)

Module LedgerExtras.
Import PortfolioManager Ledger LedgerScenarios LedgerFacts LedgerOps ExtraScenarios.

(** *** Sizing *)

Lemma Qabs_pos_of_neq (x y : Q) : ~ y == x -> 0 < Qabs (x - y).
Proof.
  intros Hne. apply Qabs_case; intros H.
  - destruct (Qlt_le_dec 0 (x - y)); auto. exfalso. apply Hne. lra.
  - destruct (Qlt_le_dec 0 (- (x - y))); auto. exfalso. apply Hne. lra.
Qed.

(** The risk rule of [calculatePositionSize]: for a positive price and a
    stop away from it, the size is not negative, the committed value is at
    most 80% of the capital, and the loss at the stop, [size * |price -
    stopLoss|], is at most [currentCapital * maxRiskPerTrade]. *)
Theorem position_size_risk_bound st sg :
  0 < sg_price sg ->
  ~ sg_stopLoss sg == sg_price sg ->
  0 <= currentCapital st ->
  0 <= maxRiskPerTrade st ->
  let size0 := calculatePositionSize st sg in
  0 <= size0
  /\ size0 * sg_price sg <= 0.8 * currentCapital st
  /\ size0 * Qabs (sg_price sg - sg_stopLoss sg)
     <= currentCapital st * maxRiskPerTrade st.
Proof.
  intros Hp Hne Hc Hr size0. subst size0.
  pose proof (calculatePositionSize_capped st sg Hp) as Hcap.
  pose proof (Qabs_pos_of_neq (sg_price sg) (sg_stopLoss sg) Hne) as Ha.
  unfold calculatePositionSize, getAvailableCapital in *.
  set (A := Qabs (sg_price sg - sg_stopLoss sg)) in *.
  set (p := sg_price sg) in *.
  set (R := currentCapital st * maxRiskPerTrade st).
  set (m := Qmin (R / (A / p)) (currentCapital st * 0.8)) in *.
  assert (Hd : 0 < A / p) by (apply Qlt_shift_div_l; lra).
  assert (HR : 0 <= R) by (subst R; nra).
  assert (Hv : 0 <= R / (A / p)) by (apply Qle_shift_div_l; lra).
  assert (Hm0 : 0 <= m) by (subst m; apply Q.min_glb; lra).
  assert (Hmv : m <= R / (A / p)) by (subst m; apply Q.le_min_l).
  split; [apply Qle_shift_div_l; lra|]. split; [exact Hcap|].
  assert (E1 : m / p * A == m * (A / p)) by (field; lra).
  assert (E2 : R / (A / p) * (A / p) == R) by (field; split; lra).
  rewrite E1, <- E2. apply Qmult_le_compat_r; lra.
Qed.

Lemma position_size_risk_bound_witness :
  0 <= calculatePositionSize (constructor defaultConfig) exampleEntry
  /\ calculatePositionSize (constructor defaultConfig) exampleEntry * 100 <= 0.8 * 10000
  /\ calculatePositionSize (constructor defaultConfig) exampleEntry * Qabs (100 - 98)
     <= 10000 * 0.02.
Proof.
  apply (position_size_risk_bound (constructor defaultConfig) exampleEntry);
    vm_compute; first [reflexivity | discriminate].
Defined.

(** *** Admission *)

Lemma admitted_checks st sym strat price :
  fst (canOpenPosition st sym strat price) = true ->
  chk_maxPositions (admissionChecks st sym strat price) = true
  /\ chk_correlation (admissionChecks st sym strat price) = true
  /\ chk_riskBudget (admissionChecks st sym strat price) = true
  /\ chk_capital (admissionChecks st sym strat price) = true.
Proof.
  unfold canOpenPosition, allChecks. simpl. intros H.
  repeat (apply andb_true_iff in H; destruct H as [H ?]). auto.
Qed.

Lemma position_value_exact st sg :
  ~ sg_price sg == 0 ->
  calculatePositionSize st sg * sg_price sg <= 0.8 * currentCapital st.
Proof.
  intros Hp. unfold calculatePositionSize, getAvailableCapital.
  set (v := currentCapital st * maxRiskPerTrade st
            / (Qabs (sg_price sg - sg_stopLoss sg) / sg_price sg)).
  assert (E : Qmin v (currentCapital st * 0.8) / sg_price sg * sg_price sg
              == Qmin v (currentCapital st * 0.8)) by (field; exact Hp).
  rewrite E. pose proof (Q.le_min_r v (currentCapital st * 0.8)). lra.
Qed.

(** An admitted opening of a regular candidate (non-zero price, stop away
    from it) under a new id moves capital into the position:
    the total portfolio value is what it was, and at least 20% of the capital
    stays available, so the capital stays positive. *)
Theorem open_moves_capital st newId now sg :
  regular sg ->
  fst (canOpenPosition st (sg_symbol sg) (sg_strategy sg) (sg_price sg)) = true ->
  JsMap.get newId (positions st) = None ->
  let st' := snd (openPosition st newId now sg) in
  getTotalPortfolioValue st' == getTotalPortfolioValue st
  /\ 0.2 * currentCapital st <= currentCapital st'
  /\ 0 < currentCapital st'.
Proof.
  intros [Hp _] Hadm Hfresh st'. subst st'.
  pose proof (openValue_after_open st newId now sg Hadm Hfresh) as Hval.
  pose proof (position_value_exact st sg Hp) as Hcap.
  destruct (admitted_checks _ _ _ _ Hadm) as (_ & _ & _ & Hpos).
  simpl in Hpos. apply Qlt_bool_iff in Hpos. unfold getAvailableCapital in Hpos.
  unfold getTotalPortfolioValue. rewrite Hval.
  rewrite (openPosition_admitted _ _ _ _ Hadm). simpl.
  repeat split; lra.
Qed.

Lemma open_moves_capital_witness :
  let st' := snd (openPosition (constructor defaultConfig) "pos_1" 0 xauusd) in
  getTotalPortfolioValue st' == getTotalPortfolioValue (constructor defaultConfig)
  /\ 0.2 * currentCapital (constructor defaultConfig) <= currentCapital st'
  /\ 0 < currentCapital st'.
Proof.
  apply (open_moves_capital (constructor defaultConfig) "pos_1" 0 xauusd).
  - split; vm_compute; discriminate.
  - vm_compute. reflexivity.
  - reflexivity.
Defined.




(** When two open positions carry symbols of the candidate's correlation
    group, [openPosition] returns [false], leaves capital, positions and
    trades as they were, and emits one [positionRejected] whose vector has
    [correlation = false]; the three other checks are evaluated all the same
    (the risk of the book is a sum of quotients by entry prices, which are
    taken not to be [0]). *)
Theorem correlated_pair_rejected st newId now sg :
  Forall (fun p => ~ entryPrice p == 0) (JsMap.values (positions st)) ->
  (2 <= List.length
          (filter (fun pos => includes (symbol pos) (getCorrelatedSymbols (sg_symbol sg)))
             (JsMap.values (positions st))))%nat ->
  exists checks,
    openPosition st newId now sg
    = (None, emit (positionRejected (sg_symbol sg) (sg_strategy sg) checks) st)
    /\ chk_correlation checks = false
    /\ chk_maxPositions checks
       = Qlt_bool (inject_Z (Z.of_nat (JsMap.size (positions st)))) (maxOpenPositions st)
    /\ chk_riskBudget checks
       = Qle_bool (getCurrentPortfolioRisk st + maxRiskPerTrade st) (maxPortfolioRisk st)
    /\ chk_capital checks = Qlt_bool 0 (currentCapital st).
Proof.
  intros _ Hlen.
  assert (Hcorr : checkCorrelationLimit st (sg_symbol sg) = false).
  { unfold checkCorrelationLimit. apply Nat.ltb_ge. exact Hlen. }
  eexists. split.
  - apply openPosition_rejected. unfold canOpenPosition, allChecks. simpl.
    rewrite Hcorr. now rewrite andb_false_r.
  - simpl. repeat split; auto.
Qed.

Lemma correlated_pair_rejected_witness :
  exists checks,
    openPosition bareBook "pos_3" 2 (pairEntry "BTC/USDT")
    = (None, emit (positionRejected "BTC/USDT" "EMACrossover" checks) bareBook)
    /\ chk_correlation checks = false
    /\ chk_maxPositions checks = true
    /\ chk_riskBudget checks = true
    /\ chk_capital checks = true.
Proof.
  destruct (correlated_pair_rejected bareBook "pos_3" 2 (pairEntry "BTC/USDT"))
    as (checks & H1 & H2 & H3 & H4 & H5).
  - repeat constructor; vm_compute; discriminate.
  - vm_compute. lia.
  - exists checks. split; [exact H1|]. split; [exact H2|].
    split; [rewrite H3; reflexivity|].
    split; [rewrite H4; reflexivity|rewrite H5; reflexivity].
Defined.

(** *** Runs of open, close, update and rebalance *)

Lemma tame_refl st : tame st st.
Proof. unfold tame, sameSettings. auto 10. Qed.

Lemma tame_trans st1 st2 st3 : tame st1 st2 -> tame st2 st3 -> tame st1 st3.
Proof.
  unfold tame, sameSettings.
  intros ((A1 & A2 & A3 & A4) & B & C & D) ((E1 & E2 & E3 & E4) & F & G & H).
  split; [repeat split; congruence|]. split; [lia|]. split; auto.
Qed.

Lemma tame_emit e st : tame st (emit e st).
Proof. unfold tame, sameSettings, bookOK, sound. simpl. auto 10. Qed.

Lemma tame_close st pid price r now :
  tame st (snd (closePosition st pid price r now)).
Proof.
  destruct (JsMap.get pid (positions st)) as [p|] eqn:Hget.
  2:{ rewrite (closePosition_unknown _ _ _ _ _ Hget). apply tame_refl. }
  split; [|split; [|split]].
  - unfold closePosition, sameSettings. rewrite Hget. simpl. auto.
  - unfold closePosition. rewrite Hget. simpl. apply JsMapExtras.size_delete_le.
  - intros (Hwf & Hk & Hex). unfold closePosition. rewrite Hget.
    unfold bookOK, keyed, excursionsSigned. simpl. repeat split.
    + now apply JsMapFacts.wf_delete.
    + unfold keyed in Hk. rewrite Forall_forall in *. intros e He.
      apply Hk. eapply JsMapExtras.in_delete; eauto.
    + now apply JsMapExtras.forall_values_delete.
  - intros (Hwf & Hlong & Hrec).
    now apply step_close_reconciles.
Qed.

(** The revaluation of one open position. *)
Lemma tame_metrics st id0 p u x :
  JsMap.get id0 (positions st) = Some p ->
  tame st
    (setLedger (currentCapital st)
       (JsMap.set id0
          (setMetrics u (Qmin (maxDrawdown p) x) (Qmax (maxProfit p) x) p)
          (positions st))
       (closedTrades st) st).
Proof.
  intros Hget. set (p' := setMetrics _ _ _ p).
  destruct (JsMapExtras.set_present id0 p p' _ Hget) as (m1 & m2 & Hm & Hset).
  pose proof (JsMapExtras.get_in_values _ _ _ Hget) as Hin.
  split; [|split; [|split]].
  - unfold sameSettings. simpl. auto.
  - simpl. rewrite Hset, Hm. unfold JsMap.size. rewrite !length_app. simpl. lia.
  - intros (Hwf & Hk & Hex). unfold bookOK, keyed, excursionsSigned. simpl.
    repeat split.
    + now apply JsMapFacts.wf_set.
    + unfold keyed in Hk. rewrite Forall_forall in *. intros e He.
      destruct (JsMapExtras.in_set _ _ _ _ He) as [->|He']; auto.
      simpl. apply JsMapFacts.get_some_in in Hget. apply (Hk _ Hget).
    + apply JsMapExtras.forall_values_set; auto.
      unfold excursionsSigned in Hex. rewrite Forall_forall in Hex.
      destruct (Hex _ Hin) as [Hd Hp]. simpl.
      pose proof (Q.le_min_l (maxDrawdown p) x).
      pose proof (Q.le_max_l (maxProfit p) x). split; lra.
  - intros (Hwf & Hlong & Hrec). unfold sound, allLong, reconciles. simpl.
    repeat split.
    + now apply JsMapFacts.wf_set.
    + apply JsMapExtras.forall_values_set; auto.
      unfold allLong in Hlong. rewrite Forall_forall in Hlong.
      apply (Hlong _ Hin).
    + unfold reconciles in Hrec. rewrite openValue_sumOver in *. simpl.
      rewrite Hset. rewrite Hm in Hrec. unfold JsMap.values in *.
      rewrite map_app, sumOver_app in *. simpl in *.
      rewrite sumOver_cons in *. simpl in *. exact Hrec.
Qed.

Lemma tame_checkExit st pid p price now :
  tame st (checkExitConditions st pid p price now).
Proof.
  unfold checkExitConditions.
  destruct (String.eqb (side p) "long");
    repeat match goal with
    | |- context [Qle_bool ?a ?b] => destruct (Qle_bool a b)
    end; simpl; auto using tame_close, tame_refl.
Qed.

Lemma tame_updatePosition marketData now st id0 :
  tame st (updatePosition marketData now st id0).
Proof.
  unfold updatePosition.
  destruct (JsMap.get id0 (positions st)) as [p|] eqn:Hget; [|apply tame_refl].
  destruct (marketData (symbol p)) as [price|]; [|apply tame_refl].
  destruct (Qeq_bool price 0); [apply tame_refl|].
  eapply tame_trans; [|apply tame_checkExit]. now apply tame_metrics.
Qed.

Lemma tame_rebalanceStep now st id0 : tame st (rebalanceStep now st id0).
Proof.
  unfold rebalanceStep.
  destruct (JsMap.get id0 (positions st)) as [p|]; [|apply tame_refl].
  destruct (Qlt_bool 0.25 (pnlPercentOf p)), (Qlt_bool (pnlPercentOf p) (-0.15));
    eauto using tame_trans, tame_emit, tame_close, tame_refl.
Qed.

Lemma tame_fold (f : State -> string -> State) :
  (forall st k, tame st (f st k)) ->
  forall ks st, tame st (fold_left f ks st).
Proof.
  intros Hf. induction ks as [|k ks IH]; intros st; simpl.
  - apply tame_refl.
  - eapply tame_trans; [apply Hf|apply IH].
Qed.

Lemma tame_updatePositions st marketData now :
  tame st (updatePositions st marketData now).
Proof.
  unfold updatePositions. eapply tame_trans; [|apply tame_emit].
  apply tame_fold. intros. apply tame_updatePosition.
Qed.

Lemma tame_rebalancePortfolio st now : tame st (rebalancePortfolio st now).
Proof.
  unfold rebalancePortfolio. eapply tame_trans; [|apply tame_emit].
  apply tame_fold. intros. apply tame_rebalanceStep.
Qed.

Lemma open_sameSettings st newId now sg :
  sameSettings st (snd (openPosition st newId now sg)).
Proof.
  unfold sameSettings.
  destruct (fst (canOpenPosition st (sg_symbol sg) (sg_strategy sg) (sg_price sg)))
    eqn:E.
  - rewrite (openPosition_admitted _ _ _ _ E). simpl. auto.
  - rewrite (openPosition_rejected _ _ _ _ E). simpl. auto.
Qed.

Lemma open_bookOK st newId now sg :
  bookOK st -> bookOK (snd (openPosition st newId now sg)).
Proof.
  intros (Hwf & Hk & Hex).
  destruct (fst (canOpenPosition st (sg_symbol sg) (sg_strategy sg) (sg_price sg)))
    eqn:E.
  - rewrite (openPosition_admitted _ _ _ _ E).
    unfold bookOK, keyed, excursionsSigned. simpl. repeat split.
    + now apply JsMapFacts.wf_set.
    + unfold keyed in Hk. rewrite Forall_forall in *. intros e He.
      destruct (JsMapExtras.in_set _ _ _ _ He) as [->|He']; auto.
    + apply JsMapExtras.forall_values_set; auto. simpl. split; lra.
  - rewrite (openPosition_rejected _ _ _ _ E). split; [|split]; assumption.
Qed.

Lemma fresh_manager_bookOK config : bookOK (constructor config).
Proof.
  split; [apply JsMapFacts.wf_empty|]. split; constructor.
Qed.

Lemma applyOp_bookOK st op : bookOK st -> bookOK (applyOp st op).
Proof.
  destruct op as [newId now sg|pid price r now|marketData now|now]; simpl.
  - apply open_bookOK.
  - apply tame_close.
  - apply tame_updatePositions.
  - apply tame_rebalancePortfolio.
Qed.

(** Through any sequence of [openPosition], [closePosition],
    [updatePositions] and [rebalancePortfolio] calls on a new manager (the
    candidates being regular), every open position is stored once, under its
    own id, with [maxDrawdown <= 0] and [maxProfit >= 0]. *)
Theorem book_stays_well_formed config ops :
  regularOps ops ->
  let st := runOps (constructor config) ops in
  NoDup (JsMap.keys (positions st))
  /\ (forall k p, JsMap.get k (positions st) = Some p -> id p = k)
  /\ (forall k p, JsMap.get k (positions st) = Some p ->
      maxDrawdown p <= 0 /\ 0 <= maxProfit p).
Proof.
  assert (H : forall l st, bookOK st -> bookOK (runOps st l)).
  { unfold runOps. induction l as [|op l IH]; intros st Hok; simpl; auto.
    apply IH. now apply applyOp_bookOK. }
  destruct (H ops _ (fresh_manager_bookOK config)) as (Hwf & Hk & Hex).
  intros _. simpl. split; [exact Hwf|]. split.
  - intros k p Hget. unfold keyed in Hk. rewrite Forall_forall in Hk.
    apply (Hk _ (JsMapFacts.get_some_in _ _ _ Hget)).
  - intros k p Hget. unfold excursionsSigned in Hex. rewrite Forall_forall in Hex.
    apply Hex. eapply JsMapExtras.get_in_values; eauto.
Qed.

Lemma applyOp_tame_or_open st op :
  match op with
  | opOpen _ _ _ => True
  | _ => tame st (applyOp st op)
  end.
Proof.
  destruct op; simpl; auto using tame_close, tame_updatePositions,
    tame_rebalancePortfolio.
Qed.

Lemma withinCapacity_tame st st' :
  tame st st' -> withinCapacity st -> withinCapacity st'.
Proof.
  unfold withinCapacity. intros ((_ & _ & _ & Hmax) & Hsize & _) Hcap.
  rewrite Hmax. eapply Qle_trans; [|exact Hcap].
  rewrite <- Zle_Qle. lia.
Qed.

Lemma withinCapacity_open st newId now sg n :
  maxOpenPositions st == inject_Z n ->
  withinCapacity st ->
  withinCapacity (snd (openPosition st newId now sg)).
Proof.
  intros Hn Hcap.
  destruct (fst (canOpenPosition st (sg_symbol sg) (sg_strategy sg) (sg_price sg)))
    eqn:E.
  - destruct (admitted_checks _ _ _ _ E) as (Hlt & _). simpl in Hlt.
    apply Qlt_bool_iff in Hlt. rewrite Hn in Hlt. rewrite <- Zlt_Qlt in Hlt.
    rewrite (openPosition_admitted _ _ _ _ E). unfold withinCapacity. simpl.
    rewrite Hn. rewrite <- Zle_Qle.
    pose proof (JsMapExtras.size_set_le newId (opened st newId now sg) (positions st)).
    lia.
  - rewrite (openPosition_rejected _ _ _ _ E). exact Hcap.
Qed.

(** With a whole number as [maxOpenPositions], no sequence of open, close,
    update and rebalance calls brings the number of open positions above
    it. *)
Theorem open_positions_within_limit ops : forall st n,
  maxOpenPositions st == inject_Z n ->
  withinCapacity st ->
  withinCapacity (runOps st ops).
Proof.
  unfold runOps. induction ops as [|op ops IH]; intros st n Hn Hcap; simpl; auto.
  assert (Hset : maxOpenPositions (applyOp st op) = maxOpenPositions st).
  { destruct op; simpl;
      [apply open_sameSettings | apply tame_close | apply tame_updatePositions
      | apply tame_rebalancePortfolio]. }
  apply (IH _ n); [now rewrite Hset|].
  pose proof (applyOp_tame_or_open st op) as Ht.
  destruct op; try (eapply withinCapacity_tame; eauto; fail).
  simpl. eapply withinCapacity_open; eauto.
Qed.

Lemma sound_tame st st' : tame st st' -> sound st -> sound st'.
Proof. intros (_ & _ & _ & H). exact H. Qed.

(** On a new manager, a run of the four operations that opens long positions
    only (under new ids, at non-zero prices, with stops away from the price)
    keeps the ledger reconciled:
    [currentCapital] plus the value of the open positions is
    [initialCapital] plus the realized PnL of the closed trades, whatever the
    stops, targets and rebalancing sweeps closed on the way. *)
Theorem long_book_reconciles config ops :
  longOps (constructor config) ops ->
  reconciles (runOps (constructor config) ops).
Proof.
  assert (H : forall l st, sound st -> longOps st l -> sound (runOps st l)).
  { unfold runOps. induction l as [|op l IH]; intros st Hs Hl; simpl; auto.
    destruct Hl as [Hop Hrest]. apply IH; auto.
    pose proof (applyOp_tame_or_open st op) as Ht.
    destruct op; try (eapply sound_tame; eauto; fail).
    destruct Hs as (Hwf & Hlong & Hrec). destruct Hop as (Hside & _ & Hfresh).
    simpl. now apply step_open_reconciles. }
  intros Hl. apply H; auto. apply fresh_manager_reconciles.
Qed.

Lemma open_positions_within_limit_witness :
  JsMap.size (positions (runOps (constructor defaultConfig) sixOpenings)) = 5%nat
  /\ withinCapacity (runOps (constructor defaultConfig) sixOpenings).
Proof.
  split; [vm_compute; reflexivity|].
  apply (open_positions_within_limit sixOpenings (constructor defaultConfig) 5).
  - reflexivity.
  - vm_compute. discriminate.
Defined.

Lemma long_book_reconciles_witness :
  List.length (closedTrades (runOps (constructor defaultConfig) stopAndSweep)) = 2%nat
  /\ reconciles (runOps (constructor defaultConfig) stopAndSweep).
Proof.
  split; [vm_compute; reflexivity|].
  apply (long_book_reconciles defaultConfig stopAndSweep).
  simpl. unfold regular. repeat split; try reflexivity; vm_compute; discriminate.
Defined.

(** *** What an update does to each position *)

Lemma crossed_setMetrics p u dd mp price :
  crossed (setMetrics u dd mp p) price = crossed p price.
Proof. reflexivity. Qed.

Lemma checkExit_positions st pid p0 p price now :
  JsMap.get pid (positions st) = Some p0 ->
  positions (checkExitConditions st pid p price now)
  = if crossed p price then JsMap.delete pid (positions st) else positions st.
Proof.
  intros Hget. unfold checkExitConditions, crossed.
  destruct (String.eqb (side p) "long");
    repeat match goal with
    | |- context [Qle_bool ?a ?b] => destruct (Qle_bool a b)
    end; simpl; auto; unfold closePosition; rewrite Hget; reflexivity.
Qed.

Lemma updatePosition_here marketData now st id0 :
  JsMap.get id0 (positions (updatePosition marketData now st id0))
  = afterUpdate marketData (JsMap.get id0 (positions st)).
Proof.
  unfold updatePosition, afterUpdate, quoted.
  destruct (JsMap.get id0 (positions st)) as [p|] eqn:Hget; [|now rewrite Hget].
  destruct (marketData (symbol p)) as [price|]; [|exact Hget].
  destruct (Qeq_bool price 0); [exact Hget|].
  erewrite checkExit_positions by (simpl; apply JsMapFacts.get_set_same).
  rewrite crossed_setMetrics. destruct (crossed p price); simpl.
  - apply JsMapFacts.get_delete_same.
  - apply JsMapFacts.get_set_same.
Qed.

Lemma updatePosition_elsewhere marketData now st id0 k :
  k <> id0 ->
  JsMap.get k (positions (updatePosition marketData now st id0))
  = JsMap.get k (positions st).
Proof.
  intros Hne. unfold updatePosition.
  destruct (JsMap.get id0 (positions st)) as [p|] eqn:Hget; auto.
  destruct (marketData (symbol p)) as [price|]; auto.
  destruct (Qeq_bool price 0); auto.
  erewrite checkExit_positions by (simpl; apply JsMapFacts.get_set_same).
  destruct (crossed _ price); simpl.
  - rewrite JsMapFacts.get_delete_other by congruence.
    apply JsMapFacts.get_set_other. congruence.
  - apply JsMapFacts.get_set_other. congruence.
Qed.

Lemma includes_in k ks : includes k ks = true <-> In k ks.
Proof.
  unfold includes. rewrite existsb_exists. split.
  - intros (x & Hin & Hx). apply String.eqb_eq in Hx. now subst.
  - intros Hin. exists k. split; auto. apply String.eqb_refl.
Qed.

Lemma update_fold marketData now ks : forall st k,
  NoDup ks ->
  JsMap.get k (positions (fold_left (updatePosition marketData now) ks st))
  = if includes k ks
    then afterUpdate marketData (JsMap.get k (positions st))
    else JsMap.get k (positions st).
Proof.
  induction ks as [|k0 ks IH]; intros st k Hnd; simpl; auto.
  inversion Hnd as [|? ? Hnotin Hnd']; subst.
  rewrite IH by assumption.
  destruct (String.eqb_spec k k0) as [->|Hne]; simpl.
  - destruct (includes k0 ks) eqn:E; [apply includes_in in E; contradiction|].
    apply updatePosition_here.
  - rewrite updatePosition_elsewhere by congruence. reflexivity.
Qed.

(** [updatePositions] position by position, on a book whose keys are distinct
    and whose positions hold a value to divide by:
    a position without a usable quote for its symbol (none, or [0]) is left as
    it is; a quoted position is removed when the price is at or beyond its
    stop or target, and is otherwise revalued at the price; nothing else
    appears in the book.  So no position stays open past a threshold it was
    quoted at. *)
Theorem update_position_by_position st marketData now k :
  NoDup (JsMap.keys (positions st)) ->
  Forall (fun p => ~ size p * entryPrice p == 0) (JsMap.values (positions st)) ->
  JsMap.get k (positions (updatePositions st marketData now))
  = match JsMap.get k (positions st) with
    | None => None
    | Some p =>
        match quoted marketData p with
        | None => Some p
        | Some price => if crossed p price then None else Some (revalued p price)
        end
    end.
Proof.
  intros Hnd _. unfold updatePositions. simpl.
  rewrite update_fold by assumption.
  destruct (includes k (JsMap.keys (positions st))) eqn:E; [reflexivity|].
  assert (Hnotin : ~ In k (JsMap.keys (positions st))).
  { intros Hin. apply includes_in in Hin. congruence. }
  apply JsMapFacts.get_none_notin in Hnotin. now rewrite Hnotin.
Qed.

Lemma update_position_by_position_witness :
  JsMap.get "pos_1" (positions (updatePositions exampleBook (quote 97) 60000)) = None
  /\ JsMap.get "pos_1" (positions (updatePositions exampleBook (quote 101) 60000))
     = Some (revalued exampleLong 101)
  /\ JsMap.get "pos_1" (positions (updatePositions exampleBook (quote 0) 60000))
     = Some exampleLong.
Proof.
  assert (Hnd : NoDup (JsMap.keys (positions exampleBook)))
    by (repeat constructor; simpl; tauto).
  assert (Hval : Forall (fun p => ~ size p * entryPrice p == 0)
                   (JsMap.values (positions exampleBook)))
    by (repeat constructor; vm_compute; discriminate).
  split; [|split].
  - rewrite (update_position_by_position exampleBook (quote 97) 60000 "pos_1" Hnd Hval).
    reflexivity.
  - rewrite (update_position_by_position exampleBook (quote 101) 60000 "pos_1" Hnd Hval).
    reflexivity.
  - rewrite (update_position_by_position exampleBook (quote 0) 60000 "pos_1" Hnd Hval).
    reflexivity.
Defined.

Lemma book_stays_well_formed_witness :
  let st := runOps (constructor defaultConfig) quietRun in
  JsMap.keys (positions st) = ["pos_1"; "pos_2"]%string
  /\ NoDup (JsMap.keys (positions st))
  /\ (forall k p, JsMap.get k (positions st) = Some p -> id p = k)
  /\ (forall k p, JsMap.get k (positions st) = Some p ->
      maxDrawdown p <= 0 /\ 0 <= maxProfit p).
Proof.
  split; [reflexivity|].
  apply (book_stays_well_formed defaultConfig quietRun).
  unfold regularOps, regular.
  repeat constructor; vm_compute; discriminate.
Defined.

(** *** What a close does to the equity *)

(** Closing an open position changes the total portfolio value by
    [size * (closePrice - entryPrice)] whatever the side: on a long position
    that is the realized PnL of the trade, on a short one it is its
    opposite. *)
Theorem close_moves_equity st pid p price r now :
  NoDup (JsMap.keys (positions st)) ->
  JsMap.get pid (positions st) = Some p ->
  exists trade st',
    closePosition st pid price r now = (Some trade, st')
    /\ getTotalPortfolioValue st'
       == getTotalPortfolioValue st + size p * (price - entryPrice p)
    /\ (side p = "long"%string ->
        getTotalPortfolioValue st' == getTotalPortfolioValue st + realizedPnL trade)
    /\ (side p <> "long"%string ->
        getTotalPortfolioValue st' == getTotalPortfolioValue st - realizedPnL trade).
Proof.
  intros Hwf Hget.
  destruct (closePosition_open st pid p price r now Hget)
    as (trade & st' & Hclose & (t' & _ & _ & _ & _ & _ & Hps) & Hcap & _).
  exists trade, st'. split; [exact Hclose|].
  assert (Hpnl : realizedPnL trade = calculatePnL p price).
  { unfold closePosition in Hclose. rewrite Hget in Hclose.
    now injection Hclose as <- _. }
  assert (Hval : getTotalPortfolioValue st'
                 == getTotalPortfolioValue st + size p * (price - entryPrice p)).
  { unfold getTotalPortfolioValue. rewrite !openValue_sumOver, Hps, Hcap.
    change (fun pos => size pos * entryPrice pos) with committed.
    rewrite (openValue_after_delete _ _ _ Hwf Hget). unfold committed. lra. }
  split; [exact Hval|]. split; intros Hside; rewrite Hval, Hpnl.
  - rewrite calculatePnL_long by assumption. lra.
  - rewrite calculatePnL_short by assumption. lra.
Qed.

Lemma close_moves_equity_witness :
  let st := snd (openPosition (constructor defaultConfig) "pos_1" 0 shortEntry) in
  exists trade st',
    closePosition st "pos_1" 90 "take_profit" 3600000 = (Some trade, st')
    /\ realizedPnL trade == 800
    /\ getTotalPortfolioValue st' == getTotalPortfolioValue st - realizedPnL trade.
Proof.
  intros st.
  assert (Hnd : NoDup (JsMap.keys (positions st)))
    by (repeat constructor; simpl; tauto).
  destruct (close_moves_equity st "pos_1" (positionOf st "pos_1") 90 "take_profit"
              3600000 Hnd eq_refl) as (trade & st' & Hclose & _ & _ & Hshort).
  exists trade, st'. split; [exact Hclose|]. split.
  - unfold closePosition in Hclose. simpl in Hclose. injection Hclose as <- _.
    vm_compute. reflexivity.
  - apply Hshort. discriminate.
Defined.

End LedgerExtras.

(** ** Performance analytics *)

Module AnalyticsFacts.
Import PortfolioManager Ledger LedgerScenarios LedgerFacts PortfolioAnalytics ExtraScenarios.

Lemma countQ_le (a b : nat) : (a <= b)%nat -> countQ a <= countQ b.
Proof. intros H. unfold countQ. rewrite <- Zle_Qle. lia. Qed.

Lemma countQ_pos (a : nat) : (0 < a)%nat -> 0 < countQ a.
Proof.
  intros H. unfold countQ. change 0 with (inject_Z 0). rewrite <- Zlt_Qlt. lia.
Qed.

Lemma sumOver_nonneg {A : Type} (f : A -> Q) (l : list A) :
  Forall (fun x => 0 <= f x) l -> 0 <= sumOver f l.
Proof.
  induction 1 as [|x l Hx _ IH].
  - rewrite sumOver_nil. lra.
  - rewrite sumOver_cons. lra.
Qed.

(** [getWinRate] is [0] on an empty history and a fraction between 0 and 1
    otherwise. *)
Theorem win_rate_is_a_fraction st :
  (closedTrades st = [] -> getWinRate st = 0)
  /\ 0 <= getWinRate st <= 1.
Proof.
  unfold getWinRate. split; [now intros ->|].
  destruct (closedTrades st) as [|t ts] eqn:E; simpl Nat.eqb; cbv iota; [lra|].
  set (total := List.length (t :: ts)).
  set (wins := List.length (filter isWin (t :: ts))).
  assert (Ht : 0 < countQ total) by (apply countQ_pos; subst total; simpl; lia).
  assert (Hw : countQ wins <= countQ total)
    by (apply countQ_le; subst wins total; apply filter_length_le).
  assert (Hw0 : 0 <= countQ wins)
    by (change 0 with (countQ 0); apply countQ_le; lia).
  split.
  - apply Qle_shift_div_l; lra.
  - apply Qle_shift_div_r; lra.
Qed.

Lemma wins_nonneg ts : 0 <= sumOver realizedPnL (filter isWin ts).
Proof.
  apply sumOver_nonneg. apply Forall_forall. intros t Ht.
  apply filter_In in Ht. destruct Ht as [_ Hw]. apply Qlt_bool_iff in Hw. lra.
Qed.

(** [getProfitFactor] is never negative, and on a history without a losing
    trade it is the sum of the winning PnL: the division is not reached. *)
Theorem profit_factor_without_losses st :
  0 <= getProfitFactor st
  /\ (Forall (fun t => 0 <= realizedPnL t) (closedTrades st) ->
      getProfitFactor st = sumOver realizedPnL (filter isWin (closedTrades st))).
Proof.
  unfold getProfitFactor. split.
  - pose proof (wins_nonneg (closedTrades st)) as Hw.
    pose proof (Qabs_nonneg (sumOver realizedPnL (filter isLoss (closedTrades st)))) as Hl.
    destruct (Qeq_bool _ 0) eqn:E; auto.
    apply Qeq_bool_neq in E. apply Qle_shift_div_l; lra.
  - intros Hall.
    assert (E : filter isLoss (closedTrades st) = []).
    { induction Hall as [|t ts Ht _ IH]; simpl; auto.
      unfold isLoss at 1. destruct (Qlt_bool (realizedPnL t) 0) eqn:El; auto.
      apply Qlt_bool_iff in El. lra. }
    rewrite E. reflexivity.
Qed.

Lemma profit_factor_without_losses_witness :
  let st := runOpsWins in
  getProfitFactor st = sumOver realizedPnL (filter isWin (closedTrades st)).
Proof.
  apply (proj2 (profit_factor_without_losses runOpsWins)).
  repeat constructor; vm_compute; discriminate.
Defined.

Lemma win_rate_is_a_fraction_witness :
  getWinRate (constructor defaultConfig) = 0
  /\ 0 <= getWinRate runOpsWins <= 1.
Proof.
  split.
  - apply (proj1 (win_rate_is_a_fraction (constructor defaultConfig))). reflexivity.
  - apply (proj2 (win_rate_is_a_fraction runOpsWins)).
Defined.

(** *** Drawdown *)

Lemma firstn_snoc {A : Type} (l : list A) (k : nat) (d : A) :
  (k < List.length l)%nat -> firstn (S k) l = firstn k l ++ [nth k l d].
Proof.
  revert k. induction l as [|x l IH]; intros k Hk; simpl in *; [lia|].
  destruct k as [|k]; simpl; auto. f_equal. apply IH. lia.
Qed.

Lemma equity_grows st k :
  Forall (fun t => 0 <= realizedPnL t) (closedTrades st) ->
  (k < List.length (closedTrades st))%nat ->
  equityAfter st k <= equityAfter st (S k).
Proof.
  intros Hall Hk. unfold equityAfter.
  destruct (closedTrades st) as [|t0 ts] eqn:E; [simpl in Hk; lia|].
  rewrite (firstn_snoc (t0 :: ts) k t0 Hk), sumOver_app, sumOver_cons, sumOver_nil.
  rewrite Forall_forall in Hall.
  assert (0 <= realizedPnL (nth k (t0 :: ts) t0)) by (apply Hall, nth_In; exact Hk).
  lra.
Qed.

Lemma drawdownStep_eq st peak dd k :
  drawdownStep st (peak, dd) k
  = (if Qlt_bool peak (equityAfter st (S k)) then equityAfter st (S k) else peak,
     if Qlt_bool dd
          (((if Qlt_bool peak (equityAfter st (S k))
             then equityAfter st (S k) else peak)
            - equityAfter st (S k))
           / (if Qlt_bool peak (equityAfter st (S k))
              then equityAfter st (S k) else peak))
     then ((if Qlt_bool peak (equityAfter st (S k))
            then equityAfter st (S k) else peak)
           - equityAfter st (S k))
          / (if Qlt_bool peak (equityAfter st (S k))
             then equityAfter st (S k) else peak)
     else dd).
Proof. reflexivity. Qed.

Lemma drawdown_fold_nonneg st ks : forall peak dd,
  0 <= dd -> 0 <= snd (fold_left (drawdownStep st) ks (peak, dd)).
Proof.
  induction ks as [|k ks IH]; intros peak dd Hdd; cbn [fold_left]; auto.
  rewrite drawdownStep_eq. apply IH.
  match goal with |- context [Qlt_bool dd ?x] => destruct (Qlt_bool dd x) eqn:E end;
    auto.
  apply Qlt_bool_iff in E. lra.
Qed.

Lemma drawdown_fold_flat st n : forall k peak dd,
  Forall (fun t => 0 <= realizedPnL t) (closedTrades st) ->
  (k + n <= List.length (closedTrades st))%nat ->
  peak == equityAfter st k -> dd == 0 ->
  snd (fold_left (drawdownStep st) (seq k n) (peak, dd)) == 0.
Proof.
  induction n as [|n IH]; intros k peak dd Hall Hlen Hpeak Hdd;
    cbn [seq fold_left snd]; auto.
  rewrite drawdownStep_eq.
  pose proof (equity_grows st k Hall ltac:(lia)) as Hgrow.
  set (cur := equityAfter st (S k)) in *.
  set (peak' := if Qlt_bool peak cur then cur else peak).
  assert (Hp' : peak' == cur).
  { subst peak'. destruct (Qlt_bool peak cur) eqn:E; [reflexivity|].
    destruct (Qlt_le_dec peak cur) as [q|q];
      [apply Qlt_bool_iff in q; congruence|lra]. }
  assert (Hz : (peak' - cur) / peak' == 0).
  { unfold Qdiv. setoid_replace (peak' - cur) with 0 by lra. ring. }
  apply IH; auto; try lia.
  destruct (Qlt_bool dd _); [exact Hz|exact Hdd].
Qed.

(** [getMaxDrawdown] is never negative, and with a positive initial capital
    it is [0] on a history without a losing trade. *)
Theorem max_drawdown_without_losses st :
  0 <= getMaxDrawdown st
  /\ (0 < initialCapital st ->
      Forall (fun t => 0 <= realizedPnL t) (closedTrades st) ->
      getMaxDrawdown st == 0).
Proof.
  unfold getMaxDrawdown. split.
  - apply drawdown_fold_nonneg. lra.
  - intros _ Hall. apply drawdown_fold_flat; auto; try reflexivity.
    unfold equityAfter. simpl. rewrite sumOver_nil. lra.
Qed.

Lemma max_drawdown_without_losses_witness :
  List.length (closedTrades runOpsWins) = 2%nat
  /\ getMaxDrawdown runOpsWins == 0.
Proof.
  split; [reflexivity|].
  apply (proj2 (max_drawdown_without_losses runOpsWins)).
  - reflexivity.
  - repeat constructor; vm_compute; discriminate.
Defined.

(** *** The daily series *)

Lemma pushed_sums_to_value st d :
  initialCapital st
  + sumOver (fun pnl => pnl)
      (d ++ [getTotalPortfolioValue st
             - (if Nat.ltb 0 (List.length d)
                then initialCapital st + sumOver (fun pnl => pnl) d
                else initialCapital st)])
  == getTotalPortfolioValue st.
Proof.
  destruct d as [|x d].
  - cbn [List.length Nat.ltb Nat.leb app]. rewrite sumOver_cons, sumOver_nil. lra.
  - cbn [List.length Nat.ltb Nat.leb].
    rewrite sumOver_app, (sumOver_cons _ _ []), sumOver_nil. lra.
Qed.

(** [updateDailyPnL] keeps the series at 252 entries at most.  While the
    series is shorter than that, [initialCapital] plus its sum is the total
    portfolio value at the update; once it is full, the oldest entry is
    dropped and the sum falls short of the value by that entry. *)
Theorem daily_series_window st d :
  ((List.length d <= 252)%nat -> (List.length (updateDailyPnL st d) <= 252)%nat)
  /\ ((List.length d < 252)%nat ->
      initialCapital st + sumOver (fun pnl => pnl) (updateDailyPnL st d)
      == getTotalPortfolioValue st)
  /\ (forall x r, d = x :: r -> List.length d = 252%nat ->
      List.length (updateDailyPnL st d) = 252%nat
      /\ initialCapital st + sumOver (fun pnl => pnl) (updateDailyPnL st d)
         == getTotalPortfolioValue st - x).
Proof.
  pose proof (pushed_sums_to_value st d) as Hsum.
  unfold updateDailyPnL.
  set (entry := getTotalPortfolioValue st - _) in *.
  assert (Hlen : List.length (d ++ [entry]) = S (List.length d))
    by (rewrite length_app; simpl; lia).
  rewrite Hlen. split; [|split].
  - intros Hd. destruct (Nat.ltb 252 (S (List.length d))) eqn:E.
    + apply Nat.ltb_lt in E. destruct d; simpl in *; [lia|].
      rewrite length_app. simpl. lia.
    + apply Nat.ltb_ge in E. lia.
  - intros Hd. destruct (Nat.ltb 252 (S (List.length d))) eqn:E.
    + apply Nat.ltb_lt in E. lia.
    + exact Hsum.
  - intros x r -> Hd. rewrite Hd. cbn [Nat.ltb Nat.leb].
    change (Nat.ltb 252 253) with true. cbv iota.
    simpl tl. split.
    + rewrite length_app. simpl in *. lia.
    + simpl app in Hsum. rewrite sumOver_cons in Hsum. lra.
Qed.

Lemma daily_series_window_witness :
  let d := repeat 1 252 in
  List.length (updateDailyPnL (constructor defaultConfig) [1]) = 2%nat
  /\ 10000 + sumOver (fun pnl => pnl) (updateDailyPnL (constructor defaultConfig) [1])
     == 10000
  /\ List.length (updateDailyPnL (constructor defaultConfig) d) = 252%nat
  /\ 10000 + sumOver (fun pnl => pnl) (updateDailyPnL (constructor defaultConfig) d)
     == 10000 - 1.
Proof.
  intros d.
  destruct (daily_series_window (constructor defaultConfig) [1]) as (_ & H2 & _).
  destruct (daily_series_window (constructor defaultConfig) d) as (_ & _ & H3).
  destruct (H3 1 (repeat 1 251) eq_refl eq_refl) as [H4 H5].
  split; [reflexivity|]. split; [apply H2; simpl; lia|]. split; [exact H4|exact H5].
Defined.

End AnalyticsFacts.

(** ** Default thresholds and close signals *)

Module ControlsFacts.
Import PortfolioManager Ledger LedgerScenarios LedgerFacts LedgerOps TradingControls.

(** The default stop of a position lies on its losing side at exactly
    [riskPercent] of the price, and the default target lies on its winning
    side at [riskRewardRatio] times the distance of the stop it is given. *)
Theorem default_thresholds price stop r k side0 :
  0 < price -> 0 < r -> 0 < k -> ~ stop == price ->
  let sl := calculateDefaultStopLoss price side0 r in
  let tp := calculateDefaultTakeProfit price stop side0 k in
  Qabs (price - sl) / price == r
  /\ (if String.eqb side0 "long"
      then sl < price /\ price < tp /\ tp - price == k * Qabs (price - stop)
      else price < sl /\ tp < price /\ price - tp == k * Qabs (price - stop)).
Proof.
  intros Hp Hr Hk Hne sl tp. subst sl tp.
  pose proof (LedgerExtras.Qabs_pos_of_neq price stop Hne) as Ha.
  unfold calculateDefaultStopLoss, calculateDefaultTakeProfit.
  destruct (String.eqb side0 "long").
  - assert (E : price - price * (1 - r) == price * r) by ring.
    rewrite E, Qabs_pos by nra. split; [field; lra|].
    split; [nra|]. split; [nra|ring].
  - assert (E : price - price * (1 + r) == - (price * r)) by ring.
    rewrite E, Qabs_opp, Qabs_pos by nra. split; [field; lra|].
    split; [nra|]. split; [nra|ring].
Qed.

Lemma default_thresholds_witness :
  let sl := calculateDefaultStopLoss 100 "long" defaultRiskPercent in
  let tp := calculateDefaultTakeProfit 100 98 "long" defaultRiskRewardRatio in
  Qabs (100 - sl) / 100 == 0.02
  /\ sl < 100 /\ 100 < tp /\ tp - 100 == 2.5 * Qabs (100 - 98).
Proof.
  apply (default_thresholds 100 98 defaultRiskPercent defaultRiskRewardRatio "long");
    vm_compute; first [reflexivity | discriminate].
Defined.

(** *** Close signals *)

Lemma closePosition_positions st pid price r now :
  positions (snd (closePosition st pid price r now))
  = JsMap.delete pid (positions st).
Proof.
  unfold closePosition. destruct (JsMap.get pid (positions st)) eqn:E; simpl; auto.
  symmetry. now apply JsMapFacts.delete_absent.
Qed.

Lemma closeAll_get price now ps : forall st k,
  JsMap.get k (positions (fold_left (closeOne price now) ps st))
  = if includes k (map id ps) then None else JsMap.get k (positions st).
Proof.
  induction ps as [|p ps IH]; intros st k; simpl; auto.
  rewrite IH. unfold closeOne. rewrite closePosition_positions.
  destruct (String.eqb_spec k (id p)) as [->|Hne]; simpl.
  - rewrite JsMapFacts.get_delete_same. now destruct (includes (id p) (map id ps)).
  - rewrite JsMapFacts.get_delete_other by congruence. reflexivity.
Qed.

(** The trades a run of closes appends, when each position is open at its
    turn. *)
Lemma closeAll_trades price now ps : forall st,
  NoDup (map id ps) ->
  Forall (fun p => JsMap.get (id p) (positions st) = Some p) ps ->
  exists ts,
    closedTrades (fold_left (closeOne price now) ps st) = closedTrades st ++ ts
    /\ map tradePosition ts = map (setStatus "closed") ps
    /\ Forall (fun t => reason t = "manual_close"%string /\ closePrice t = price) ts.
Proof.
  induction ps as [|p ps IH]; intros st Hnd Hopen; simpl.
  - exists []. rewrite app_nil_r. auto.
  - inversion Hnd as [|? ? Hnotin Hnd']; subst.
    inversion Hopen as [|? ? Hp Hrest]; subst.
    destruct (closePosition_open st (id p) p price "manual_close" now Hp)
      as (t & st1 & Hclose & (t' & Hts & Hpos & Hprice & Hr & _ & Hps) & _).
    assert (Hst1 : closeOne price now st p = st1)
      by (unfold closeOne; now rewrite Hclose).
    rewrite Hst1.
    destruct (IH st1 Hnd') as (ts & Hts' & Hmap & Hall).
    { rewrite Forall_forall in *. intros q Hq. rewrite Hps.
      rewrite JsMapFacts.get_delete_other; auto.
      intros Heq. apply Hnotin. rewrite Heq. now apply in_map. }
    exists (t' :: ts). rewrite Hts', Hts, <- app_assoc. simpl.
    repeat split; auto. now rewrite Hpos, Hmap.
Qed.

Lemma keyed_entries st ps :
  bookOK st ->
  incl ps (JsMap.values (positions st)) ->
  Forall (fun p => JsMap.get (id p) (positions st) = Some p) ps.
Proof.
  intros (Hwf & Hk & _) Hincl. apply Forall_forall. intros p Hp.
  apply Hincl in Hp. unfold JsMap.values in Hp. apply in_map_iff in Hp.
  destruct Hp as ([k q] & <- & Hin).
  unfold keyed in Hk. rewrite Forall_forall in Hk.
  pose proof (Hk _ Hin) as Hid. simpl in *. rewrite Hid.
  now apply JsMapFacts.in_get_some.
Qed.

Lemma ids_nodup st :
  bookOK st -> NoDup (map id (JsMap.values (positions st))).
Proof.
  intros (Hwf & Hk & _). unfold JsMap.wf, JsMap.keys, JsMap.values in *.
  rewrite map_map.
  assert (E : map (fun e => id (snd e)) (positions st) = map fst (positions st)).
  { apply map_ext_in. intros e He. unfold keyed in Hk.
    rewrite Forall_forall in Hk. now apply Hk. }
  now rewrite E.
Qed.

Lemma nodup_map_filter {A B : Type} (f : A -> B) (keep : A -> bool) (l : list A) :
  NoDup (map f l) -> NoDup (map f (filter keep l)).
Proof.
  induction l as [|x l IH]; simpl; auto.
  intros Hnd. inversion Hnd as [|? ? Hnotin Hnd']; subst.
  destruct (keep x); simpl; auto. constructor; auto.
  intros Hin. apply Hnotin. apply in_map_iff in Hin.
  destruct Hin as (y & Hy & Hin). apply filter_In in Hin.
  apply in_map_iff. exists y. tauto.
Qed.

(** A close signal with a price (one that is not [0], so that the code takes
    it and awaits no other), in paper trading, on a book whose positions are
    stored under their ids: every open position on the symbol is closed,
    at the signal's price and with the reason [manual_close], one trade each
    and in the order of the book; the positions on other symbols stay as they
    are and nothing else appears. *)
Theorem close_signal_closes_symbol pm sym price now :
  ~ price == 0 ->
  bookOK pm ->
  let st' := processCloseSignal pm sym price now in
  let closing :=
    filter (fun pos => String.eqb (symbol pos) sym) (JsMap.values (positions pm)) in
  (forall k,
     JsMap.get k (positions st')
     = match JsMap.get k (positions pm) with
       | Some p => if String.eqb (symbol p) sym then None else Some p
       | None => None
       end)
  /\ exists ts,
       closedTrades st' = closedTrades pm ++ ts
       /\ map tradePosition ts = map (setStatus "closed") closing
       /\ Forall (fun t => reason t = "manual_close"%string /\ closePrice t = price) ts.
Proof.
  intros _ Hok st' closing. subst st'. unfold processCloseSignal.
  fold closing. fold (closeOne price now).
  assert (Hopen : Forall (fun p => JsMap.get (id p) (positions pm) = Some p) closing).
  { apply keyed_entries; auto. intros p Hp. subst closing.
    now apply filter_In in Hp. }
  split.
  - intros k. rewrite closeAll_get.
    destruct (includes k (map id closing)) eqn:E.
    + apply LedgerExtras.includes_in in E. apply in_map_iff in E.
      destruct E as (p & <- & Hp). rewrite Forall_forall in Hopen.
      rewrite (Hopen _ Hp). subst closing. apply filter_In in Hp.
      destruct Hp as [_ ->]. reflexivity.
    + destruct (JsMap.get k (positions pm)) as [p|] eqn:Hget; auto.
      destruct (String.eqb (symbol p) sym) eqn:Es; auto.
      assert (Hin : In k (map id closing)).
      { destruct Hok as (Hwf & Hk & _). unfold keyed in Hk.
        rewrite Forall_forall in Hk.
        pose proof (Hk _ (JsMapFacts.get_some_in _ _ _ Hget)) as Hid. simpl in Hid.
        rewrite <- Hid. apply in_map. subst closing. apply filter_In. split; auto.
        eapply JsMapExtras.get_in_values; eauto. }
      apply LedgerExtras.includes_in in Hin. congruence.
  - apply closeAll_trades; auto.
    subst closing. apply nodup_map_filter. now apply ids_nodup.
Qed.

Lemma close_signal_closes_symbol_witness :
  let pm := runOps (constructor defaultConfig)
              [opOpen "pos_1" 0 xauusd; opOpen "pos_2" 1 exampleEntry] in
  let st' := processCloseSignal pm "XAUUSD" 2010 60000 in
  JsMap.get "pos_1" (positions st') = None
  /\ JsMap.get "pos_2" (positions st') = JsMap.get "pos_2" (positions pm)
  /\ exists ts,
       closedTrades st' = closedTrades pm ++ ts
       /\ List.length ts = 1%nat
       /\ Forall (fun t => reason t = "manual_close"%string /\ closePrice t = 2010) ts.
Proof.
  intros pm st'.
  assert (Hok : bookOK pm).
  { split; [|split].
    - repeat constructor; simpl; intuition discriminate.
    - repeat constructor.
    - repeat constructor; vm_compute; discriminate. }
  assert (Hprice : ~ 2010 == 0) by (vm_compute; discriminate).
  destruct (close_signal_closes_symbol pm "XAUUSD" 2010 60000 Hprice Hok)
    as (Hget & ts & Hts & Hmap & Hall).
  split; [rewrite Hget; reflexivity|]. split; [rewrite Hget; reflexivity|].
  exists ts. split; [exact Hts|]. split; [|exact Hall].
  apply (f_equal (@List.length _)) in Hmap. rewrite !length_map in Hmap.
  exact Hmap.
Defined.

End ControlsFacts.

(** ** More on the webhook receiver *)

Module ReceiverFacts.
Import WebhookReceiver Intake IntakeScenarios IntakeFacts ReceiverExtras.
Import ReceiverVocabulary ReceiverScenarios.

Lemma includes_In x l : includes x l = true <-> In x l.
Proof.
  unfold includes. rewrite existsb_exists. split.
  - intros (y & Hin & Hy). apply String.eqb_eq in Hy. now subst.
  - intros Hin. exists x. split; auto. apply String.eqb_refl.
Qed.

(** *** The IP allow-list *)

Section AllowList.
Variable hmacSha256Hex : string -> string -> string.
Variable jsonStringify : Payload -> string.

(** The IP middleware lets a request through exactly when the allow-list is
    empty or holds its address; any other request is answered 403 before the
    signature is looked at, and nothing is stored or emitted. *)
Theorem ip_allow_list_gate st env req :
  (ipMiddleware st req = None
   <-> allowedIPs st = [] \/ In (req_ip req) (allowedIPs st))
  /\ (allowedIPs st <> [] -> ~ In (req_ip req) (allowedIPs st) ->
      handleWebhook hmacSha256Hex jsonStringify st env req
      = (respond 403 (errorBody "Unauthorized IP"), [], st)).
Proof.
  assert (Hgate : ipMiddleware st req = None
                  <-> allowedIPs st = [] \/ In (req_ip req) (allowedIPs st)).
  { unfold ipMiddleware. destruct (allowedIPs st) as [|ip ips] eqn:E.
    - simpl. tauto.
    - cbn [List.length Nat.ltb Nat.leb andb].
      destruct (includes (req_ip req) (ip :: ips)) eqn:Ei; cbn [negb].
      + apply includes_In in Ei. tauto.
      + split; [discriminate|]. intros [H|H]; [discriminate|].
        apply includes_In in H. congruence. }
  split; [exact Hgate|].
  intros Hne Hnotin.
  assert (Hn : ipMiddleware st req <> None) by (rewrite Hgate; tauto).
  unfold handleWebhook. unfold ipMiddleware in *.
  destruct (_ && _); [reflexivity|congruence].
Qed.
End AllowList.

Lemma ip_allow_list_gate_witness :
  let st := addAllowedIP freshReceiver "52.89.214.238" in
  let req := mkRequest "10.0.0.7" undefined (mkPayload (str "BTCUSDT") undefined (str "buy") undefined) in
  handleWebhook (fun _ _ => "00ff"%string) (fun _ => "{}"%string) st (mkEnv "tv_1" 0 0) req
  = (respond 403 (errorBody "Unauthorized IP"), [], st).
Proof.
  intros st req.
  apply (proj2 (ip_allow_list_gate (fun _ _ => "00ff"%string) (fun _ => "{}"%string)
                  st (mkEnv "tv_1" 0 0) req)).
  - discriminate.
  - simpl. intuition discriminate.
Defined.

(** [addAllowedIP] admits the address it is given, keeps a list without
    repetitions so, and adds nothing the second time.  On an empty list,
    which lets every address through, it leaves that one address as the
    only one let through. *)
Theorem add_allowed_ip st ip req :
  (req_ip req = ip -> ipMiddleware (addAllowedIP st ip) req = None)
  /\ (NoDup (allowedIPs st) -> NoDup (allowedIPs (addAllowedIP st ip)))
  /\ addAllowedIP (addAllowedIP st ip) ip = addAllowedIP st ip
  /\ (allowedIPs st = [] -> req_ip req <> ip ->
      ipMiddleware st req = None
      /\ ipMiddleware (addAllowedIP st ip) req
         = Some (respond 403 (errorBody "Unauthorized IP"))).
Proof.
  assert (Hin : In ip (allowedIPs (addAllowedIP st ip))).
  { unfold addAllowedIP. destruct (includes ip (allowedIPs st)) eqn:E; simpl.
    - now apply includes_In.
    - apply in_or_app. right. now left. }
  split; [|split; [|split]].
  - intros <-. unfold ipMiddleware.
    apply includes_In in Hin. rewrite Hin. now rewrite andb_false_r.
  - intros Hnd. unfold addAllowedIP.
    destruct (includes ip (allowedIPs st)) eqn:E; simpl; auto.
    apply NoDup_app; auto.
    + constructor; [intros []|constructor].
    + intros x Hx [<-|[]]. apply includes_In in Hx. congruence.
  - unfold addAllowedIP at 1. apply includes_In in Hin. now rewrite Hin.
  - intros Hempty Hne. unfold ipMiddleware, addAllowedIP. rewrite Hempty. simpl.
    split; auto.
    destruct (String.eqb_spec (req_ip req) ip); [contradiction|reflexivity].
Qed.

Lemma add_allowed_ip_witness :
  let req := mkRequest "10.0.0.7" undefined (mkPayload undefined undefined undefined undefined) in
  ipMiddleware freshReceiver req = None
  /\ ipMiddleware (addAllowedIP freshReceiver "52.89.214.238") req
     = Some (respond 403 (errorBody "Unauthorized IP")).
Proof.
  intros req.
  apply (proj2 (proj2 (proj2 (add_allowed_ip freshReceiver "52.89.214.238" req))));
    [reflexivity|discriminate].
Defined.

(** *** The recent-signal window *)

Lemma wf_filter {V : Type} (keep : string * V -> bool) (m : JsMap.t V) :
  JsMap.wf m -> JsMap.wf (filter keep m).
Proof.
  unfold JsMap.wf, JsMap.keys. induction m as [|[k v] r IH]; simpl; auto.
  intros Hnd. inversion Hnd as [|? ? Hnotin Hnd']; subst.
  destruct (keep (k, v)); simpl; auto. constructor; auto.
  intros Hin. apply Hnotin. apply in_map_iff in Hin.
  destruct Hin as (e & He & Hin). apply filter_In in Hin.
  apply in_map_iff. exists e. tauto.
Qed.

Lemma not_duplicate_far st sg e :
  isDuplicateSignal st sg = false ->
  In e (JsMap.values (recentSignals st)) ->
  symbol e = symbol sg -> action e = action sg ->
  (signalTTL st <= timestamp sg - timestamp e)%Z.
Proof.
  intros Hnd Hin Hs Ha.
  destruct (Z_lt_le_dec (timestamp sg - timestamp e) (signalTTL st)) as [Hlt|]; auto.
  assert (isDuplicateSignal st sg = true); [|congruence].
  apply isDuplicateSignal_iff. exists e. unfold withinWindow. auto.
Qed.

Lemma windowOK_serve st a : windowOK st -> windowOK (snd (serve st a)).
Proof.
  intros (Hwf & Hk & Hsp).
  destruct (isDuplicateSignal st (signalOf a)) eqn:E.
  - rewrite (serve_duplicate _ _ E). split; [|split]; assumption.
  - rewrite (serve_fresh _ _ E). cbn [snd]. rewrite processSignal_window.
    set (sg := signalOf a) in *.
    assert (Hin : forall k e,
              In (k, e) (recentSignals
                           (cleanOldSignals
                              (setRecentSignals
                                 (JsMap.set (id sg) sg (recentSignals st)) st)
                              (nowClean (a_env a)))) ->
              (k, e) = (id sg, sg) \/ In (k, e) (recentSignals st)).
    { intros k e H. unfold cleanOldSignals in H. simpl in H.
      apply filter_In in H. destruct H as [H _].
      now apply JsMapExtras.in_set in H. }
    split; [|split].
    + unfold cleanOldSignals. simpl. apply wf_filter. now apply JsMapFacts.wf_set.
    + apply Forall_forall. intros [k e] He. simpl.
      destruct (Hin _ _ He) as [[= -> ->]|Hold]; auto.
      rewrite Forall_forall in Hk. apply (Hk _ Hold).
    + intros k1 e1 k2 e2 H1 H2 Hne Hs Ha.
      change (signalTTL (cleanOldSignals
                (setRecentSignals (JsMap.set (id sg) sg (recentSignals st)) st)
                (nowClean (a_env a)))) with (signalTTL st).
      destruct (Hin _ _ H1) as [[= -> ->]|Hold1], (Hin _ _ H2) as [[= -> ->]|Hold2].
      * congruence.
      * assert (In e2 (JsMap.values (recentSignals st)))
          by (unfold JsMap.values; apply in_map_iff; now exists (k2, e2)).
        pose proof (not_duplicate_far st sg e2 E H (eq_sym Hs) (eq_sym Ha)). lia.
      * assert (In e1 (JsMap.values (recentSignals st)))
          by (unfold JsMap.values; apply in_map_iff; now exists (k1, e1)).
        pose proof (not_duplicate_far st sg e1 E H Hs Ha). lia.
      * apply (Hsp k1 e1 k2 e2); auto.
Qed.

(** On a new receiver, whatever requests reach the route, the window holds
    each signal once, under its own id, and two stored signals with one
    symbol and one action are never less than [signalTTL] apart. *)
Theorem window_spaces_signals config l k1 e1 k2 e2 :
  let st := serveAll (constructor config) l in
  JsMap.get k1 (recentSignals st) = Some e1 ->
  JsMap.get k2 (recentSignals st) = Some e2 ->
  k1 <> k2 ->
  id e1 = k1 /\ id e2 = k2
  /\ (symbol e1 = symbol e2 -> action e1 = action e2 ->
      (signalTTL st <= Z.abs (timestamp e1 - timestamp e2))%Z).
Proof.
  assert (H : forall l st, windowOK st -> windowOK (serveAll st l)).
  { unfold serveAll. induction l0 as [|a l0 IH]; intros st Hok; simpl; auto.
    apply IH. now apply windowOK_serve. }
  assert (H0 : windowOK (constructor config)).
  { split; [apply JsMapFacts.wf_empty|]. split; [constructor|].
    intros ? ? ? ? []. }
  destruct (H l _ H0) as (Hwf & Hk & Hsp).
  intros st Hg1 Hg2 Hne. subst st.
  apply JsMapFacts.get_some_in in Hg1, Hg2.
  rewrite Forall_forall in Hk.
  split; [apply (Hk _ Hg1)|]. split; [apply (Hk _ Hg2)|].
  intros Hs Ha. now apply (Hsp k1 e1 k2 e2).
Qed.

(** After a request that was answered [received], no signal in the window is
    older than ten times the TTL at the time of the sweep. *)
Theorem window_is_swept st a e :
  fst (fst (serve st a)) = received a ->
  In e (JsMap.values (recentSignals (snd (serve st a)))) ->
  (nowClean (a_env a) - timestamp e <= signalTTL st * 10)%Z.
Proof.
  intros Hrec Hin. apply serve_received in Hrec.
  rewrite (serve_fresh _ _ Hrec) in Hin. cbn [snd] in Hin.
  rewrite processSignal_window in Hin. unfold cleanOldSignals in Hin. simpl in Hin.
  unfold JsMap.values in Hin. apply in_map_iff in Hin.
  destruct Hin as ([k e'] & <- & Hf). apply filter_In in Hf.
  destruct Hf as [_ Hkeep]. simpl in Hkeep.
  apply negb_true_iff, Z.ltb_ge in Hkeep. exact Hkeep.
Qed.

Lemma window_spaces_signals_witness :
  let st := serveAll freshReceiver
              [buyBTC "tv_1" 0; alert (str "ETHUSDT") (str "sell") "tv_2" 10000;
               buyBTC "tv_3" 70000] in
  JsMap.size (recentSignals st) = 3%nat
  /\ (signalTTL st <= Z.abs (0 - 70000))%Z.
Proof.
  intros st. split; [reflexivity|].
  assert (Hne : "tv_1"%string <> "tv_3"%string) by discriminate.
  apply (proj2 (proj2
    (window_spaces_signals (mkConfig undefined undefined None None)
       [buyBTC "tv_1" 0; alert (str "ETHUSDT") (str "sell") "tv_2" 10000;
        buyBTC "tv_3" 70000]
       "tv_1" (signalOf (buyBTC "tv_1" 0)) "tv_3" (signalOf (buyBTC "tv_3" 70000))
       eq_refl eq_refl Hne))); reflexivity.
Defined.

Lemma window_is_swept_witness :
  let st := serveAll freshReceiver [buyBTC "tv_1" 0] in
  let a := buyBTC "tv_2" 700000 in
  JsMap.keys (recentSignals (snd (serve st a))) = ["tv_2"%string]
  /\ (nowClean (a_env a) - timestamp (signalOf a) <= signalTTL st * 10)%Z.
Proof.
  intros st a. split; [reflexivity|].
  apply (window_is_swept st a (signalOf a)).
  - reflexivity.
  - vm_compute. now left.
Defined.

(** *** Which signals reach the queue *)

Ltac peel act :=
  destruct act as [|[[] [] [] [] [] [] [] []] act]; try reflexivity.

Lemma dispatch_listened sg act :
  action sg = str act -> listened (dispatch sg) = includes act dispatchedActions.
Proof.
  intros H. unfold dispatch. rewrite H. clear H.
  peel act; peel act; peel act; peel act; peel act; peel act.
Qed.

Lemma heard_one tm a ev :
  Nat.ltb (List.length (TradingManager.signalQueue tm))
    (List.length (TradingManager.signalQueue (heard tm a [ev])))
  = listened ev && TradingManager.isActive tm.
Proof.
  unfold heard. simpl.
  destruct ev; simpl; unfold TradingManager.queueSignal;
    destruct (TradingManager.isActive tm); simpl;
    rewrite ?length_app; simpl;
    try apply Nat.ltb_irrefl; apply Nat.ltb_lt; lia.
Qed.

Lemma valid_has_action sg :
  isValidSignal sg = true ->
  exists act, action sg = str act
              /\ includes (toLowerCase act) dispatchedActions = true.
Proof.
  unfold isValidSignal.
  destruct (negb (truthy (symbol sg)) || negb (truthy (action sg))); [discriminate|].
  destruct (symbol sg) as [| |sym]; try discriminate;
    destruct (action sg) as [| |act]; try discriminate.
  destruct (negb (symbolPattern sym)); [discriminate|].
  destruct (includes (toLowerCase act) _) eqn:E; [|discriminate].
  intros _. now exists act.
Qed.

(** A signal is admitted (answered [received] and put on the queue) exactly
    when it is no duplicate, passes validation, carries one of the six
    actions in lower case, and the trading manager is active.  Validation
    lowers the case of the action and the dispatch does not, so a valid
    signal whose action is written otherwise is answered [received] and is
    not queued. *)
Theorem admission_characterized st tm a :
  (admitted st tm a = true
   <-> isDuplicateSignal st (signalOf a) = false
       /\ isValidSignal (signalOf a) = true
       /\ (exists act, action (signalOf a) = str act /\ In act dispatchedActions)
       /\ TradingManager.isActive tm = true)
  /\ (isDuplicateSignal st (signalOf a) = false ->
      isValidSignal (signalOf a) = true ->
      (forall act, action (signalOf a) = str act -> ~ In act dispatchedActions) ->
      fst (fst (serve st a)) = received a /\ admitted st tm a = false).
Proof.
  assert (Hfresh : isDuplicateSignal st (signalOf a) = false ->
                   isValidSignal (signalOf a) = true ->
                   forall act, action (signalOf a) = str act ->
                   admitted st tm a
                   = includes act dispatchedActions && TradingManager.isActive tm).
  { intros Hd Hv act Hact. unfold admitted.
    rewrite (serve_fresh _ _ Hd), Hv. unfold received.
    rewrite heard_one, (dispatch_listened _ _ Hact). reflexivity. }
  split.
  - split.
    + intros Hadm.
      destruct (isDuplicateSignal st (signalOf a)) eqn:Hd.
      { rewrite (duplicate_not_admitted _ _ _ (serve_duplicate _ _ Hd)) in Hadm.
        discriminate. }
      destruct (isValidSignal (signalOf a)) eqn:Hv.
      * destruct (valid_has_action _ Hv) as (act & Hact & _).
        rewrite (Hfresh eq_refl eq_refl act Hact) in Hadm.
        apply andb_true_iff in Hadm. destruct Hadm as [Hi Hact'].
        repeat split; auto. exists act. split; auto. now apply includes_In.
      * unfold admitted in Hadm. rewrite (serve_fresh _ _ Hd), Hv in Hadm.
        unfold received in Hadm. rewrite heard_one in Hadm. discriminate.
    + intros (Hd & Hv & (act & Hact & Hin) & Hactive).
      rewrite (Hfresh Hd Hv act Hact), Hactive.
      apply includes_In in Hin. now rewrite Hin.
  - intros Hd Hv Hnone. split.
    + now rewrite (serve_fresh _ _ Hd).
    + destruct (valid_has_action _ Hv) as (act & Hact & _).
      rewrite (Hfresh Hd Hv act Hact).
      destruct (includes act dispatchedActions) eqn:E; auto.
      apply includes_In in E. exfalso. eapply Hnone; eauto.
Qed.

Lemma admission_characterized_witness :
  let a := alert (str "BTCUSDT") (str "BUY") "tv_1" 0 in
  isValidSignal (signalOf a) = true
  /\ fst (fst (serve freshReceiver a)) = received a
  /\ admitted freshReceiver activeManager a = false.
Proof.
  intros a. split; [reflexivity|].
  apply (proj2 (admission_characterized freshReceiver activeManager a));
    try reflexivity.
  intros act [= <-]. simpl. intuition discriminate.
Defined.

(** *** The history endpoint *)










(** *** Text alerts *)

Lemma length_append (a b : string) :
  String.length (a ++ b) = (String.length a + String.length b)%nat.
Proof. induction a as [|c a IH]; simpl; auto. Qed.

Lemma substring_all (a : string) : String.substring 0 (String.length a) a = a.
Proof. induction a as [|c a IH]; simpl; auto. now rewrite IH. Qed.

Lemma substring_head (a b : string) :
  String.substring 0 (String.length a) (a ++ b) = a.
Proof.
  induction a as [|c a IH]; simpl.
  - destruct b; reflexivity.
  - now rewrite IH.
Qed.

Lemma substring_tail (a b : string) :
  String.substring (String.length a) (String.length b) (a ++ b) = b.
Proof. induction a as [|c a IH]; simpl; auto. apply substring_all. Qed.

Lemma toUpperCase_append (a b : string) :
  toUpperCase (a ++ b) = (toUpperCase a ++ toUpperCase b)%string.
Proof.
  unfold toUpperCase. induction a as [|c a IH]; simpl; auto. now rewrite IH.
Qed.

Lemma toUpperCase_length (a : string) :
  String.length (toUpperCase a) = String.length a.
Proof. unfold toUpperCase. induction a as [|c a IH]; simpl; auto. Qed.

Lemma upperChar_letter c : isLetter c = true -> isLetter (upperChar c) = true.
Proof.
  destruct c as [[] [] [] [] [] [] [] []]; intros H; try discriminate H; reflexivity.
Qed.

Lemma takeLetters_spec n : forall s l rest,
  takeLetters n s = Some (l, rest) ->
  s = (l ++ rest)%string /\ String.length l = n
  /\ forallb isLetter (list_ascii_of_string (toUpperCase l)) = true.
Proof.
  induction n as [|n IH]; intros s l rest; simpl.
  - intros [= <- <-]. auto.
  - destruct s as [|c s]; [discriminate|].
    destruct (isLetter c) eqn:Ec; [|discriminate].
    destruct (takeLetters n s) as [[l' rest']|] eqn:E; [|discriminate].
    intros [= <- <-]. destruct (IH _ _ _ E) as (-> & Hlen & Hall).
    split; [reflexivity|]. split; [simpl; now rewrite Hlen|].
    unfold toUpperCase in *. simpl. now rewrite (upperChar_letter _ Ec), Hall.
Qed.

Lemma isChar_upper u c : isChar u c = true -> upperChar c = u.
Proof. unfold isChar. apply Ascii.eqb_eq. Qed.

Lemma takeUsd_spec s usd :
  takeUsd s = Some usd ->
  toUpperCase usd = "USD"%string \/ toUpperCase usd = "USDT"%string.
Proof.
  unfold takeUsd.
  destruct s as [|a [|b [|c rest]]]; try discriminate.
  destruct (isChar "U" a) eqn:Ea; [|discriminate].
  destruct (isChar "S" b) eqn:Eb; [|discriminate].
  destruct (isChar "D" c) eqn:Ec; [|discriminate].
  apply isChar_upper in Ea, Eb, Ec. simpl.
  destruct rest as [|t rest].
  - intros [= <-]. left. unfold toUpperCase. simpl. now rewrite Ea, Eb, Ec.
  - destruct (isChar "T" t) eqn:Et; intros [= <-]; unfold toUpperCase; simpl.
    + apply isChar_upper in Et. right. now rewrite Ea, Eb, Ec, Et.
    + left. now rewrite Ea, Eb, Ec.
Qed.

Lemma pattern_of_parts (l e : string) :
  (2 <= String.length l <= 10)%nat ->
  forallb isLetter (list_ascii_of_string l) = true ->
  e = "USD"%string \/ e = "USDT"%string ->
  symbolPattern (l ++ e) = true.
Proof.
  intros Hlen Hall He. unfold symbolPattern. apply existsb_exists.
  exists e. split; [destruct He as [->| ->]; simpl; auto|].
  rewrite length_append.
  replace (String.length l + String.length e - String.length e)%nat
    with (String.length l) by lia.
  rewrite substring_head, substring_tail, Hall.
  assert (Hup : toUpperCase e = e) by (destruct He as [->| ->]; reflexivity).
  rewrite Hup, String.eqb_refl.
  destruct Hlen as [H2 H10].
  apply Nat.leb_le in H2, H10. rewrite H2, H10.
  assert (Hle : Nat.leb (String.length e) (String.length l + String.length e) = true)
    by (apply Nat.leb_le; lia).
  now rewrite Hle.
Qed.

Lemma matchWith_pattern k s m :
  (2 <= k <= 10)%nat -> matchWith k s = Some m ->
  symbolPattern (toUpperCase m) = true.
Proof.
  intros Hk. unfold matchWith.
  destruct (takeLetters k s) as [[l rest]|] eqn:El; [|discriminate].
  destruct (takeUsd rest) as [usd|] eqn:Eu; [|discriminate].
  intros [= <-]. destruct (takeLetters_spec _ _ _ _ El) as (_ & Hlen & Hall).
  rewrite toUpperCase_append. apply pattern_of_parts.
  - rewrite toUpperCase_length. lia.
  - exact Hall.
  - now apply (takeUsd_spec rest).
Qed.

Lemma firstMatch_pattern ks s m :
  Forall (fun k => 2 <= k <= 10)%nat ks -> firstMatch ks s = Some m ->
  symbolPattern (toUpperCase m) = true.
Proof.
  induction 1 as [|k ks Hk _ IH]; simpl; [discriminate|].
  destruct (matchWith k s) eqn:E; auto.
  intros [= <-]. eapply matchWith_pattern; eauto.
Qed.

Lemma searchSymbol_pattern s m :
  searchSymbol s = Some m -> symbolPattern (toUpperCase m) = true.
Proof.
  induction s as [|c s IH]; intros H.
  - discriminate H.
  - change (searchSymbol (String c s))
      with (match matchHere (String c s) with
            | Some m => Some m
            | None => searchSymbol s
            end) in H.
    destruct (matchHere (String c s)) eqn:E; auto. injection H as <-.
    eapply firstMatch_pattern; [|exact E]. repeat constructor; lia.
Qed.

Lemma symbolPattern_nonempty s : symbolPattern s = true -> s <> EmptyString.
Proof. intros H ->. discriminate H. Qed.

(** A text alert from which a symbol and an action are both extracted passes
    validation and is dispatched to an event the trading manager listens to:
    the extracted symbol always fits the validator's pattern and the extracted
    action is one of [buy], [sell], [close]. *)
Theorem text_alert_is_valid text sg sym act :
  extractSymbolFromText text = str sym ->
  extractActionFromText text = str act ->
  symbol sg = str sym -> action sg = str act ->
  symbolPattern sym = true
  /\ In act ["buy"; "sell"; "close"]%string
  /\ isValidSignal sg = true
  /\ listened (dispatch sg) = true.
Proof.
  intros Hsym Hact Hs Ha.
  assert (Hp : symbolPattern sym = true).
  { unfold extractSymbolFromText in Hsym.
    destruct (searchSymbol text) eqn:E; [|discriminate].
    injection Hsym as <-. eapply searchSymbol_pattern; eauto. }
  assert (Hin : In act ["buy"; "sell"; "close"]%string).
  { unfold extractActionFromText in Hact.
    repeat match type of Hact with
    | (if ?c then _ else _) = _ => destruct c
    end; try discriminate; injection Hact as <-; simpl; auto. }
  split; [exact Hp|]. split; [exact Hin|].
  assert (Hne : sym <> EmptyString) by now apply symbolPattern_nonempty.
  apply String.eqb_neq in Hne.
  split.
  - unfold isValidSignal. rewrite Hs, Ha. simpl. rewrite Hne, Hp.
    destruct Hin as [<-|[<-|[<-|[]]]]; reflexivity.
  - rewrite (dispatch_listened _ _ Ha).
    destruct Hin as [<-|[<-|[<-|[]]]]; reflexivity.
Qed.

Lemma text_alert_is_valid_witness :
  let text := "Alert: go long ethusdt now, price: 3150.5"%string in
  extractSymbolFromText text = str "ETHUSDT"
  /\ extractActionFromText text = str "buy"
  /\ isValidSignal (mkSignal "tv_1" 0 (mkPayload undefined undefined undefined undefined)
                      (str "ETHUSDT") (str "buy")) = true.
Proof.
  intros text. split; [reflexivity|]. split; [reflexivity|].
  apply (text_alert_is_valid text
           (mkSignal "tv_1" 0 (mkPayload undefined undefined undefined undefined)
              (str "ETHUSDT") (str "buy"))
           "ETHUSDT" "buy"); reflexivity.
Defined.

(** *** The signature check on a stand-in digest *)

Lemma wrong_signature_rejected_witness :
  handleWebhook toyDigest toyStringify securedReceiver (mkEnv "tv_1" 0 0)
    (signedWith "00aa")
  = (respond 401 (errorBody "Invalid signature"), [], securedReceiver).
Proof.
  apply (wrong_signature_rejected toyDigest toyStringify securedReceiver
           (mkEnv "tv_1" 0 0) (signedWith "00aa") "s3cret" "00aa");
    try reflexivity; discriminate.
Defined.

Lemma other_length_signature_throws_witness :
  handleWebhook toyDigest toyStringify securedReceiver (mkEnv "tv_1" 0 0)
    (signedWith "00")
  = (unhandledError, [], securedReceiver).
Proof.
  apply (other_length_signature_throws toyDigest toyStringify securedReceiver
           (mkEnv "tv_1" 0 0) (signedWith "00") "s3cret" "00");
    try reflexivity; discriminate.
Defined.

Lemma matching_signature_passes_witness :
  signatureMiddleware toyDigest toyStringify securedReceiver (signedWith "00FF") = None.
Proof.
  apply (matching_signature_passes toyDigest toyStringify securedReceiver
           (signedWith "00FF") "s3cret" "00FF"); reflexivity.
Defined.


End ReceiverFacts.
